(** * Persistence layer of the ORC-20 indexer: [src/data/processer/pgsql.py]

    The class [Pgsql] declares six tables, builds INSERT .. ON CONFLICT and
    SELECT statements against them and hands them to a PostgreSQL connection.
    The development embeds the statements the class builds, the way the store
    executes them, and every method of the class as a function in a state and
    error monad over the store.

    The store is modelled as far as these statements exercise it: relations
    with a primary key, a catalogue of indexes, the named types a table can
    be declared with, statements that commit or fail as a whole, and a
    transport that can fail at any round trip.  Values are
    taken in the domain of their column: the conversions of the driver, the
    length bound of String(255) and the range of BIGINT are left out, and so
    is the sequence behind an integer key, which serves only rows written
    without their key. *)

From Stdlib Require Import ZArith.
From stdpp Require Import base option list gmap strings pretty sorting.

Local Open Scope string_scope.
Local Open Scope list_scope.
Local Open Scope Z_scope.

(** ** Python values and outcomes *)

(** The values that travel between the entities and the columns.  [VNone] is
    Python's [None] and SQL's NULL.  A [Decimal] bound to a DECIMAL(38, 18)
    column is counted in units of 10^-18. *)
Inductive value :=
| VNone
| VInt (z : Z)
| VDecimal (units : Z)
| VStr (s : string)
| VBool (b : bool)
| VList (l : list string)
| VJson (doc : string).

#[global] Instance value_eq_dec : EqDecision value.
Proof. solve_decision. Defined.

#[global] Instance value_inhabited : Inhabited value := populate VNone.

(** A call either returns or raises; the payload of [Raise] is [str(e)]. *)
Inductive result (A : Type) :=
| Ok (a : A)
| Raise (e : string).
Arguments Ok {A} a.
Arguments Raise {A} e.

#[global] Instance result_eq_dec {A} `{EqDecision A} : EqDecision (result A).
Proof. solve_decision. Defined.

(** A dictionary with string keys: [vars(x)], a list element of the
    [*_in_dict] methods, a fetched row. *)
Abbreviation pydict := (gmap string value).
Abbreviation row := (gmap string value).

(** [r[c]], NULL when the column is absent. *)
Definition col (r : row) (c : string) : value := default VNone (r !! c).

(** SQL's [=] as a filter: a comparison with NULL never selects. *)
Definition sql_eq (a b : value) : bool :=
  match a, b with
  | VNone, _ | _, VNone => false
  | _, _ => bool_decide (a = b)
  end.

(** ** Schema metadata ([Pgsql.__init__]) *)

Inductive sqltype :=
| String255
| BigInteger
| Integer
| DECIMAL_38_18
| Boolean
| JSON
| ARRAY_String255
| ENUM (labels : list string) (name : string).

Record Column := mkColumn {
  cname : string;
  ctype : sqltype;
  primary_key : bool;
  cdefault : option value;
}.

Record Table := mkTable {
  tname : string;
  columns : list Column;
}.

Record Index := mkIndex {
  iname : string;
  itable : string;
  icolumn : string;
}.

#[global] Instance sqltype_eq_dec : EqDecision sqltype.
Proof. solve_decision. Defined.
#[global] Instance Column_eq_dec : EqDecision Column.
Proof. solve_decision. Defined.
#[global] Instance Table_eq_dec : EqDecision Table.
Proof. solve_decision. Defined.
#[global] Instance Index_eq_dec : EqDecision Index.
Proof. solve_decision. Defined.

(** [sa.Column(name, type)], [sa.Column(name, type, primary_key=True,
    unique=True)] and [sa.Column(name, type, default=v)]. *)
Definition Col (n : string) (t : sqltype) : Column := mkColumn n t false None.
Definition Key (n : string) (t : sqltype) : Column := mkColumn n t true None.
Definition Dft (n : string) (t : sqltype) (v : value) : Column :=
  mkColumn n t false (Some v).

Definition colnames (t : Table) : list string := cname <$> columns t.

Module self.

Definition event : Table := mkTable "event" [
  Key "id" String255;
  Col "event_type" (ENUM ["TRANSFER"; "INSCRIBE"] "event_type");
  Col "block_height" BigInteger;
  Col "block_index" BigInteger;
  Col "timestamp" BigInteger;
  Col "inscription_id" String255;
  Col "inscription_number" BigInteger;
  Col "sender" String255;
  Col "receiver" String255;
  Col "content" JSON;
  Col "operation" String255;
  Col "function_id" BigInteger;
  Col "valid" Boolean;
  Col "error" String255 ].

Definition pending_inscriptions : Table := mkTable "pending_inscriptions" [
  Key "id" String255;
  Dft "inscriptions" ARRAY_String255 (VList []) ].

Definition token : Table := mkTable "token" [
  Key "id" BigInteger;
  Col "tick" String255;
  Col "max" DECIMAL_38_18;
  Col "lim" DECIMAL_38_18;
  Col "dec" Integer;
  Col "ug" Boolean;
  Col "mp" Boolean;
  Col "deployer" String255;
  Col "deploy_time" BigInteger;
  Col "inscription_id" String255;
  Dft "first_number" BigInteger (VInt 0);
  Dft "first_id" String255 (VStr EmptyString);
  Dft "first_time" BigInteger (VInt 0);
  Dft "last_number" BigInteger (VInt 0);
  Dft "last_id" String255 (VStr EmptyString);
  Dft "last_time" BigInteger (VInt 0);
  Dft "minted" DECIMAL_38_18 (VInt 0);
  Dft "burned" DECIMAL_38_18 (VInt 0);
  Dft "circulating" DECIMAL_38_18 (VInt 0);
  Dft "holders" BigInteger (VInt 0);
  Dft "last_upgrade_time" BigInteger (VInt 0);
  Dft "upgrade_records" ARRAY_String255 (VList []) ].

Definition token_index_list : list Index := [
  mkIndex "deployer" "token" "deployer";
  mkIndex "inscription_id" "token" "inscription_id" ].

Definition balance : Table := mkTable "balance" [
  Key "id" String255;
  Col "tick" String255;
  Col "tid" BigInteger;
  Col "inscription_id" String255;
  Col "address" String255;
  Col "balance" DECIMAL_38_18;
  Col "available_balance" DECIMAL_38_18;
  Col "transferable_balance" DECIMAL_38_18;
  Col "original_balance" DECIMAL_38_18 ].

Definition balance_index_list : list Index := [
  mkIndex "tid" "balance" "tid";
  mkIndex "address" "balance" "address" ].

Definition otc : Table := mkTable "otc" [
  Key "id" BigInteger;
  Col "tick1" String255;
  Col "tid1" BigInteger;
  Col "supply" DECIMAL_38_18;
  Col "tick2" String255;
  Col "tid2" BigInteger;
  Col "er" DECIMAL_38_18;
  Col "mba" DECIMAL_38_18;
  Col "dl" BigInteger;
  Col "owner" String255;
  Col "deploy_time" BigInteger;
  Col "inscription_id" String255;
  Col "valid" Boolean;
  Col "success" Boolean;
  Col "received" DECIMAL_38_18;
  Col "execute_id" String255 ].

Definition otc_index_list : list Index := [
  mkIndex "owner" "otc" "owner";
  mkIndex "inscription_id" "otc" "inscription_id";
  mkIndex "tid1" "otc" "tid1";
  mkIndex "tid2" "otc" "tid2" ].

Definition otc_record : Table := mkTable "otc_record" [
  Key "id" String255;
  Col "oid" BigInteger;
  Col "inscription_id" String255;
  Col "address" String255;
  Col "amount_out" DECIMAL_38_18;
  Col "amount_in" DECIMAL_38_18 ].

Definition otc_record_index_list : list Index := [
  mkIndex "oid" "otc_record" "oid";
  mkIndex "inscription_id" "otc_record" "inscription_id";
  mkIndex "address" "otc_record" "address" ].

End self.

(** The six tables the class declares. *)
Definition all_tables : list Table :=
  [self.event; self.pending_inscriptions; self.token; self.balance;
   self.otc; self.otc_record].

(** ** The store and the connection

    [engine] is [self.engine]: absent until [init], closed by [close].  The
    database holds the relations (the rows of each in heap order), the
    catalogue of indexes, one name space for the whole schema, and the names of
    the enumerated types that were created in it.  No statement of the class
    creates or drops a type: [CreateTable] renders a column of a named ENUM by
    the name of its type and emits no CREATE TYPE.  [faults] is the schedule of
    the transport: each round trip to the server consumes one entry, and
    [Some cause] makes that round trip fail with [cause]; an empty schedule
    never fails. *)

Inductive engine_state := NoEngine | Open | Closed.

Record World := mkWorld {
  engine : engine_state;
  faults : list (option string);
  relations : gmap string (list row);
  indexes : gmap string Index;
  types : gset string;
}.

#[global] Instance engine_state_eq_dec : EqDecision engine_state.
Proof. solve_decision. Defined.
#[global] Instance World_eq_dec : EqDecision World.
Proof. solve_decision. Defined.

Definition set_engine (e : engine_state) (w : World) : World :=
  mkWorld e (faults w) (relations w) (indexes w) (types w).
Definition set_faults (fs : list (option string)) (w : World) : World :=
  mkWorld (engine w) fs (relations w) (indexes w) (types w).
Definition set_relations (rs : gmap string (list row)) (w : World) : World :=
  mkWorld (engine w) (faults w) rs (indexes w) (types w).
Definition set_indexes (ix : gmap string Index) (w : World) : World :=
  mkWorld (engine w) (faults w) (relations w) ix (types w).

(** Methods run in a state and error monad over the world. *)
Definition M (A : Type) : Type := World -> World * result A.

Definition ret {A} (a : A) : M A := fun w => (w, Ok a).
Definition raise {A} (e : string) : M A := fun w => (w, Raise e).
Definition bind {A B} (m : M A) (k : A -> M B) : M B := fun w =>
  match m w with
  | (w', Ok a) => k a w'
  | (w', Raise e) => (w', Raise e)
  end.

Notation "'let*' x ':=' m 'in' k" := (bind m (fun x => k))
  (at level 10, x pattern, m at level 100, k at level 200).

(** [try: body except Exception as e: handler(e)]. *)
Definition try_except {A} (body : M A) (handler : string -> M A) : M A := fun w =>
  match body w with
  | (w', Ok a) => (w', Ok a)
  | (w', Raise e) => handler e w'
  end.

(** [for x in xs: body(x)]. *)
Fixpoint for_each {A} (xs : list A) (body : A -> M unit) : M unit :=
  match xs with
  | [] => ret tt
  | x :: xs' => let* _ := body x in for_each xs' body
  end.

(** One round trip to the server. *)
Definition tick : M unit := fun w =>
  match faults w with
  | [] => (w, Ok tt)
  | None :: fs => (set_faults fs w, Ok tt)
  | Some cause :: fs => (set_faults fs w, Raise cause)
  end.

(** [async with self.engine.acquire() as conn]. *)
Definition acquire : M unit := fun w =>
  match engine w with
  | NoEngine => (w, Raise "'Pgsql' object has no attribute 'engine'")
  | Closed => (w, Raise "Cannot acquire connection after closing pool")
  | Open => tick w
  end.

(** ** Statements

    What [insert(table).values(..).on_conflict_do_update(..)],
    [table.select().where(column == v)], [CreateTable], [CreateIndex] and the
    literal DROP of [clear_table] denote. *)

Inductive parameters :=
| Single (d : pydict)
| Multi (ds : list pydict).

Record Insert := mkInsert {
  into : Table;
  params : parameters;
  conflict : option (list string * list string);
}.

Definition insert (table : Table) : Insert := mkInsert table (Single ∅) None.

(** [stmt.values(d)] for one dictionary. *)
Definition values (stmt : Insert) (d : pydict) : Insert :=
  mkInsert (into stmt) (Single d) (conflict stmt).

(** [stmt.values(ds)] for a list of dictionaries; an empty list is an empty
    set of column values, not a statement of zero rows. *)
Definition values_list (stmt : Insert) (ds : list pydict) : Insert :=
  mkInsert (into stmt)
    (match ds with [] => Single ∅ | _ :: _ => Multi ds end) (conflict stmt).

(** [stmt.excluded]: one pseudo column per column of the table. *)
Definition excluded (stmt : Insert) : list string := colnames (into stmt).

(** [stmt.on_conflict_do_update(index_elements=.., set_=..)]; [set_] lists the
    columns assigned from the row proposed for insertion. *)
Definition on_conflict_do_update (stmt : Insert)
    (index_elements set_ : list string) : Insert :=
  mkInsert (into stmt) (params stmt) (Some (index_elements, set_)).

Inductive statement :=
| DropTableIfExistsCascade (table_name : string)
| CreateTable (table : Table) (if_not_exists : bool)
| CreateIndex (index : Index) (if_not_exists : bool)
| InsertStmt (stmt : Insert)
| SelectWhere (table : Table) (column : string) (v : value).

(** *** Compilation of the VALUES clause *)

(** Keys of the dictionary that name no column of the table. *)
Definition unconsumed (t : Table) (d : pydict) : list string :=
  filter (fun k => k ∉ colnames t) (fst <$> map_to_list d).

(** The value bound for a column: the caller's when the key is present, else
    the column's Python-side default, else the column is left out of the
    statement and the store fills it with NULL. *)
Definition bound (d : pydict) (c : Column) : value :=
  match d !! cname c with
  | Some v => v
  | None => default VNone (cdefault c)
  end.

Definition compile_row (t : Table) (d : pydict) : row :=
  list_to_map ((fun c => (cname c, bound d c)) <$> columns t).

(** In a multi-row VALUES clause the first dictionary fixes the rendered
    columns; a later dictionary must supply each of them or the column must
    have a default, and its other keys are not looked at. *)
Definition rendered (d0 : pydict) (c : Column) : bool :=
  bool_decide (is_Some (d0 !! cname c)) || bool_decide (is_Some (cdefault c)).

Definition bound_multi (d0 d : pydict) (c : Column) : result value :=
  if rendered d0 c then
    match d !! cname c, cdefault c with
    | Some v, _ => Ok v
    | None, Some v => Ok v
    | None, None =>
        Raise ("INSERT value for column " +:+ cname c +:+
               " is explicitly rendered as a boundparameter in the VALUES clause")
    end
  else Ok VNone.

Fixpoint collect {A B} (f : A -> result B) (l : list A) : result (list B) :=
  match l with
  | [] => Ok []
  | x :: l' =>
      match f x with
      | Raise e => Raise e
      | Ok y =>
          match collect f l' with
          | Raise e => Raise e
          | Ok ys => Ok (y :: ys)
          end
      end
  end.

Definition compile_multi_row (t : Table) (d0 d : pydict) : result row :=
  match collect (fun c => match bound_multi d0 d c with
                          | Ok v => Ok (cname c, v)
                          | Raise e => Raise e
                          end) (columns t) with
  | Ok kvs => Ok (list_to_map kvs)
  | Raise e => Raise e
  end.

Definition check_consumed (t : Table) (d : pydict) : result unit :=
  match unconsumed t d with
  | [] => Ok tt
  | k :: ks => Raise ("Unconsumed column names: " +:+ String.concat ", " (k :: ks))
  end.

Definition compile_values (t : Table) (p : parameters) : result (list row) :=
  match p with
  | Single d =>
      match check_consumed t d with
      | Raise e => Raise e
      | Ok _ => Ok [compile_row t d]
      end
  | Multi [] => Ok []
  | Multi (d0 :: ds) =>
      match check_consumed t d0 with
      | Raise e => Raise e
      | Ok _ =>
          match collect (compile_multi_row t d0) ds with
          | Raise e => Raise e
          | Ok rows => Ok (compile_row t d0 :: rows)
          end
      end
  end.

(** *** Execution *)

(** The primary key of a table. *)
Definition pk (t : Table) : list string :=
  cname <$> filter (fun c => primary_key c = true) (columns t).

(** [SET c = excluded.c] for every [c] of [set_], on the conflicting row. *)
Definition do_update (set_ : list string) (proposed old : row) : row :=
  foldr (fun c r => <[c := col proposed c]> r) old set_.

(** INSERT .. ON CONFLICT (k) DO UPDATE for one proposed row: the row whose
    key equals the proposed one is updated in place, otherwise the proposed
    row is appended. *)
Fixpoint upsert (k : string) (set_ : list string) (p : row) (heap : list row)
    : list row :=
  match heap with
  | [] => [p]
  | r :: heap' =>
      if sql_eq (col r k) (col p k) then do_update set_ p r :: heap'
      else r :: upsert k set_ p heap'
  end.

Definition has_key (k : string) (v : value) (heap : list row) : bool :=
  existsb (fun r => sql_eq (col r k) v) heap.

(** The rows of one INSERT, written one at a time on a working copy of the
    relation.  [seen] holds the keys this statement has touched already. *)
Fixpoint write_rows (k : string) (set_ : option (list string)) (rows : list row)
    (seen : list value) (heap : list row) : M (list row) :=
  match rows with
  | [] => ret heap
  | p :: rows' =>
      let* _ := tick in
      if bool_decide (col p k = VNone) then
        raise ("null value in column " +:+ k +:+ " violates not-null constraint")
      else
        match set_ with
        | Some cs =>
            if bool_decide (col p k ∈ seen) then
              raise "ON CONFLICT DO UPDATE command cannot affect row a second time"
            else write_rows k set_ rows' (col p k :: seen) (upsert k cs p heap)
        | None =>
            if has_key k (col p k) heap then
              raise "duplicate key value violates unique constraint"
            else write_rows k set_ rows' (col p k :: seen) (heap ++ [p])
        end
  end.

(** The result set of a statement, as [fetchone] and [fetchall] see it. *)
Abbreviation cursor := (list row).

(** [fetchone] gives the first row or None; [fetchall] always gives a list. *)
Definition fetchone (result : cursor) : option row := head result.
Definition fetchall (result : cursor) : option (list row) := Some result.

Definition undefined_table {A} (n : string) : M A :=
  raise ("relation " +:+ n +:+ " does not exist").

(** An INSERT is one statement: its rows are committed together, and a
    failure at any row leaves the relation as it was. *)
Definition run_insert (stmt : Insert) (rows : list row) : M cursor := fun w =>
  let t := into stmt in
  match relations w !! tname t with
  | None => undefined_table (tname t) w
  | Some heap =>
      match pk t, conflict stmt with
      | [k], Some (index_elements, set_) =>
          if bool_decide (index_elements = [k]) then
            match write_rows k (Some set_) rows [] heap w with
            | (w', Ok heap') =>
                (set_relations (<[tname t := heap']> (relations w')) w', Ok [])
            | (w', Raise e) => (w', Raise e)
            end
          else
            (w, Raise "there is no unique or exclusion constraint matching the ON CONFLICT specification")
      | [k], None =>
          match write_rows k None rows [] heap w with
          | (w', Ok heap') =>
              (set_relations (<[tname t := heap']> (relations w')) w', Ok [])
          | (w', Raise e) => (w', Raise e)
          end
      | _, _ => (w, Raise "unsupported primary key")
      end
  end.

(** Tables and indexes share one name space. *)
Definition relation_exists (n : string) (w : World) : bool :=
  bool_decide (is_Some (relations w !! n)) || bool_decide (is_Some (indexes w !! n)).

(** The named types the columns of a table are declared with, and those of
    them the database does not hold. *)
Definition enum_types (t : Table) : list string :=
  omap (fun c => match ctype c with ENUM _ name => Some name | _ => None end)
       (columns t).

Definition missing_types (t : Table) (w : World) : list string :=
  filter (fun name => name ∉ types w) (enum_types t).

Definition undefined_type {A} (n : string) : M A :=
  raise ("type " +:+ n +:+ " does not exist").

(** [await conn.execute(q)]: the statement is compiled, sent, and run. *)
Definition execute (q : statement) : M cursor :=
  match q with
  | DropTableIfExistsCascade n =>
      let* _ := tick in
      fun w =>
        (set_indexes (filter (fun ni => itable ni.2 ≠ n) (indexes w))
           (set_relations (delete n (relations w)) w), Ok [])
  | CreateTable t if_not_exists =>
      let* _ := tick in
      fun w =>
        if relation_exists (tname t) w then
          if if_not_exists then (w, Ok [])
          else (w, Raise ("relation " +:+ tname t +:+ " already exists"))
        else
          match missing_types t w with
          | [] => (set_relations (<[tname t := []]> (relations w)) w, Ok [])
          | name :: _ => undefined_type name w
          end
  | CreateIndex i if_not_exists =>
      let* _ := tick in
      fun w =>
        match relations w !! itable i with
        | None => undefined_table (itable i) w
        | Some _ =>
            if relation_exists (iname i) w then
              if if_not_exists then (w, Ok [])
              else (w, Raise ("relation " +:+ iname i +:+ " already exists"))
            else (set_indexes (<[iname i := i]> (indexes w)) w, Ok [])
        end
  | InsertStmt stmt =>
      match compile_values (into stmt) (params stmt) with
      | Raise e => raise e
      | Ok rows => let* _ := tick in run_insert stmt rows
      end
  | SelectWhere t c v =>
      let* _ := tick in
      fun w =>
        match relations w !! tname t with
        | None => undefined_table (tname t) w
        | Some heap => (w, Ok (filter (fun r => sql_eq (col r c) v) heap))
        end
  end.

(** ** Entities

    Modelled from the spec: [src/structure.py], which declares [Event],
    [Token], [Balance], [Pending_Inscriptions], [OTC] and [OTC_Record], is not
    among the sources.  Section 3 of the specification gives each entity the
    attributes of its table, so an instance is represented by its attribute
    dictionary: [vars x] is that dictionary, and constructing an instance from
    a fetched row reads the row as attributes. *)
Abbreviation Event := (gmap string value).
Abbreviation Token := (gmap string value).
Abbreviation Balance := (gmap string value).
Abbreviation Pending_Inscriptions := (gmap string value).
Abbreviation OTC := (gmap string value).
Abbreviation OTC_Record := (gmap string value).

Definition vars (x : pydict) : pydict := x.
Definition from_row (kwargs : row) : pydict := kwargs.

(** ** Python's [sorted(l, key=..)]

    The keys are computed first and the elements are then ordered by [<] on
    their keys, stably.  Ordering needs a comparison as soon as there are two
    elements, and [<] is defined between integers but not with None. *)

Definition int_key (v : value) : option Z :=
  match v with
  | VInt z => Some z
  | _ => None
  end.

Fixpoint insert_by_key {A} (x : Z * A) (l : list (Z * A)) : list (Z * A) :=
  match l with
  | [] => [x]
  | y :: l' => if y.1 <? x.1 then y :: insert_by_key x l' else x :: y :: l'
  end.

Definition stable_sort {A} (l : list (Z * A)) : list (Z * A) :=
  foldr insert_by_key [] l.

Fixpoint decorate {A} (key : A -> value) (l : list A) : option (list (Z * A)) :=
  match l with
  | [] => Some []
  | x :: l' =>
      match int_key (key x), decorate key l' with
      | Some z, Some d => Some ((z, x) :: d)
      | _, _ => None
      end
  end.

Definition sorted {A} (l : list A) (key : A -> value) : result (list A) :=
  match l with
  | [] | [_] => Ok l
  | _ =>
      match decorate key l with
      | Some d => Ok (snd <$> stable_sort d)
      | None => Raise "'<' not supported between instances of 'NoneType' and 'int'"
      end
  end.

(** ** The methods of [Pgsql]

    [logger.error] writes to a sink outside the store and is left out; the
    message it logs is the one raised. *)

(** The environment is taken to provide the four connection settings. *)
Definition init : M unit :=
  let* _ := tick in
  fun w => (set_engine Open w, Ok tt).

Definition close : M unit :=
  try_except
    (fun w =>
       match engine w with
       | NoEngine => (w, Raise "'Pgsql' object has no attribute 'engine'")
       | _ => (let* _ := tick in fun w' => (set_engine Closed w', Ok tt)) w
       end)
    (fun e =>
       let error := "Pgsql::close: Failed close database connection " +:+ e in
       raise error).

Definition clear_table (table : Table) (table_name : string)
    (index_list : list Index) : M unit :=
  try_except
    (let* _ := acquire in
     let* _ := execute (DropTableIfExistsCascade table_name) in
     let* _ := execute (CreateTable table true) in
     for_each index_list (fun index =>
       let* _ := execute (CreateIndex index true) in ret tt))
    (fun e =>
       let error := "Pgsql::clear_table: Failed to drop and create tables " +:+ e in
       raise error).

Definition create_table (table : Table) (index_list : list Index) : M unit :=
  try_except
    (let* _ := acquire in
     let* _ := execute (CreateTable table true) in
     for_each index_list (fun index =>
       let* _ := execute (CreateIndex index true) in ret tt))
    (fun e =>
       let error := "Pgsql::create_table: Failed to create tables " +:+ e in
       raise error).

Definition clear_all_tables : M unit :=
  let* _ := clear_table self.token "token" self.token_index_list in
  let* _ := clear_table self.balance "balance" self.balance_index_list in
  let* _ := clear_table self.pending_inscriptions "pending_inscriptions" [] in
  let* _ := clear_table self.otc "otc" self.otc_index_list in
  clear_table self.otc_record "otc_record" self.otc_record_index_list.

(** *** save *)

Definition save_token (token : Token) : M unit :=
  try_except
    (let insert_stmt := values (insert self.token) (vars token) in
     let on_conflict_stmt :=
       on_conflict_do_update insert_stmt ["id"] (excluded insert_stmt) in
     let* _ := acquire in
     let* _ := execute (InsertStmt on_conflict_stmt) in
     ret tt)
    (fun e =>
       let error := "Pgsql::save_token: Failed to save token " +:+ e in
       raise error).

Definition batch_save_tokens_in_dict (token : list pydict) : M unit :=
  try_except
    (let insert_stmt := values_list (insert self.token) token in
     let on_conflict_stmt :=
       on_conflict_do_update insert_stmt ["id"] (excluded insert_stmt) in
     let* _ := acquire in
     let* _ := execute (InsertStmt on_conflict_stmt) in
     ret tt)
    (fun e =>
       let error := "Pgsql::batch_save_tokens_in_dict: Failed to save token " +:+ e in
       raise error).

Definition save_event (event : Event) : M unit :=
  try_except
    (let insert_stmt := values (insert self.event) (vars event) in
     let on_conflict_stmt :=
       on_conflict_do_update insert_stmt ["id"] (excluded insert_stmt) in
     let* _ := acquire in
     let* _ := execute (InsertStmt on_conflict_stmt) in
     ret tt)
    (fun e =>
       let error := "Pgsql::save_event: Failed to save event " +:+ e in
       raise error).

Definition save_pending_inscription (pending_inscription : Pending_Inscriptions)
    : M unit :=
  try_except
    (let insert_stmt :=
       values (insert self.pending_inscriptions) (vars pending_inscription) in
     let on_conflict_stmt :=
       on_conflict_do_update insert_stmt ["id"] (excluded insert_stmt) in
     let* _ := acquire in
     let* _ := execute (InsertStmt on_conflict_stmt) in
     ret tt)
    (fun e =>
       let error :=
         "Pgsql::save_pending_inscription: Failed to save pending inscription " +:+ e in
       raise error).

Definition save_balance (balance : Balance) : M unit :=
  try_except
    (let insert_stmt := values (insert self.balance) (vars balance) in
     let on_conflict_stmt :=
       on_conflict_do_update insert_stmt ["id"] (excluded insert_stmt) in
     let* _ := acquire in
     let* _ := execute (InsertStmt on_conflict_stmt) in
     ret tt)
    (fun e =>
       let error := "Pgsql::save_balance: Failed to save balance " +:+ e in
       raise error).

Definition batch_save_balances (balances : list Balance) : M unit :=
  let new_balances := vars <$> balances in
  try_except
    (let insert_stmt := values_list (insert self.balance) new_balances in
     let on_conflict_stmt :=
       on_conflict_do_update insert_stmt ["id"] (excluded insert_stmt) in
     let* _ := acquire in
     let* _ := execute (InsertStmt on_conflict_stmt) in
     ret tt)
    (fun e =>
       let error :=
         "Pgsql::batch_save_balances: Failed to batch save balances " +:+ e in
       raise error).

Definition batch_save_balances_in_dict (balances : list pydict) : M unit :=
  try_except
    (let insert_stmt := values_list (insert self.balance) balances in
     let on_conflict_stmt :=
       on_conflict_do_update insert_stmt ["id"] (excluded insert_stmt) in
     let* _ := acquire in
     let* _ := execute (InsertStmt on_conflict_stmt) in
     ret tt)
    (fun e =>
       let error :=
         "Pgsql::batch_save_balances_in_dict: Failed to batch save balances " +:+ e in
       raise error).

Definition save_otc (otc : OTC) : M unit :=
  try_except
    (let insert_stmt := values (insert self.otc) (vars otc) in
     let on_conflict_stmt :=
       on_conflict_do_update insert_stmt ["id"] (excluded insert_stmt) in
     let* _ := acquire in
     let* _ := execute (InsertStmt on_conflict_stmt) in
     ret tt)
    (fun e =>
       let error := "Pgsql::save_otc: Failed to save otc " +:+ e in
       raise error).

Definition save_otc_record (otc_record : OTC_Record) : M unit :=
  try_except
    (let insert_stmt := values (insert self.otc_record) (vars otc_record) in
     let on_conflict_stmt :=
       on_conflict_do_update insert_stmt ["id"] (excluded insert_stmt) in
     let* _ := acquire in
     let* _ := execute (InsertStmt on_conflict_stmt) in
     ret tt)
    (fun e =>
       let error := "Pgsql::save_otc_record: Failed to save otc record " +:+ e in
       raise error).

(** *** get *)

Definition get_token (token_id : Z) : M (option Token) :=
  try_except
    (let* _ := acquire in
     let query := SelectWhere self.token "id" (VInt token_id) in
     let* result := execute query in
     match fetchone result with
     | None => ret None
     | Some token => ret (Some (from_row token))
     end)
    (fun e =>
       let error := "Pgsql::get_token: Failed to get token " +:+ e in
       raise error).

Definition get_pending_inscription (address : string)
    : M (option Pending_Inscriptions) :=
  try_except
    (let* _ := acquire in
     let query := SelectWhere self.pending_inscriptions "id" (VStr address) in
     let* result := execute query in
     match fetchone result with
     | None => ret None
     | Some pending_inscriptions => ret (Some (from_row pending_inscriptions))
     end)
    (fun e =>
       let error :=
         "Pgsql::get_pending_inscription: Failed to get pending inscriptions " +:+ e in
       raise error).

Definition get_balance (address : string) (token_id : Z) : M (option Balance) :=
  let balance_id := address +:+ "-" +:+ pretty token_id in
  try_except
    (let* _ := acquire in
     let query := SelectWhere self.balance "id" (VStr balance_id) in
     let* result := execute query in
     match fetchone result with
     | None => ret None
     | Some balance => ret (Some (from_row balance))
     end)
    (fun e =>
       let error := "Pgsql::get_balance: Failed to get balance " +:+ e in
       raise error).

Definition get_otc (otc_id : Z) : M (option OTC) :=
  try_except
    (let* _ := acquire in
     let query := SelectWhere self.otc "id" (VInt otc_id) in
     let* result := execute query in
     match fetchone result with
     | None => ret None
     | Some otc => ret (Some (from_row otc))
     end)
    (fun e =>
       let error := "Pgsql::get_otc: Failed to get otc " +:+ e in
       raise error).

Definition get_otc_records (oid : Z) : M (option (list OTC_Record)) :=
  try_except
    (let* _ := acquire in
     let query := SelectWhere self.otc_record "oid" (VInt oid) in
     let* result := execute query in
     match fetchall result with
     | None => ret None
     | Some otc_records =>
         let ret_otc_records := from_row <$> otc_records in
         ret (Some ret_otc_records)
     end)
    (fun e =>
       let error := "Pgsql::get_otc_records: Failed to get otc records " +:+ e in
       raise error).

Definition get_events_by_block_height (block_height : Z)
    : M (option (list Event)) :=
  try_except
    (let* _ := acquire in
     let query := SelectWhere self.event "block_height" (VInt block_height) in
     let* result := execute query in
     match fetchall result with
     | None => ret None
     | Some events =>
         let ret_events := from_row <$> events in
         match sorted ret_events (fun x => col x "block_index") with
         | Raise e => raise e
         | Ok sorted_ret_events => ret (Some sorted_ret_events)
         end
     end)
    (fun e =>
       let error := "Pgsql::get_events_by_block_height: Failed to get events " +:+ e in
       raise error).

(** ** Predicates on worlds, rows and methods *)

(** No transport fault is scheduled and the pool is open. *)
Definition healthy (w : World) : Prop := engine w = Open ∧ faults w = [].

(** The primary key of a row; every table of the class is keyed by [id]. *)
Definition row_id (r : row) : value := col r "id".

(** A row with exactly the columns of [t]. *)
Definition shaped (t : Table) (r : row) : Prop := dom r = list_to_set (colnames t).

(** What the store guarantees of a relation: rows of the declared shape, a
    key that is never NULL and never repeated. *)
Definition heap_ok (t : Table) (heap : list row) : Prop :=
  Forall (fun r => shaped t r ∧ row_id r ≠ VNone) heap ∧ NoDup (row_id <$> heap).

(** A fully formed instance of the entity stored in [t]: every attribute is
    set and the key is not None. *)
Definition instance_of (t : Table) (x : pydict) : Prop :=
  shaped t x ∧ row_id x ≠ VNone.

Definition keyed_by_id (t : Table) : Prop :=
  pk t = ["id"] ∧ NoDup (colnames t).

(** Whole-row replace on conflict, in the words of the specification: the
    row under the key of [p] becomes [p], and [p] is appended when its key is
    new. *)
Fixpoint put (p : row) (heap : list row) : list row :=
  match heap with
  | [] => [p]
  | r :: h => if bool_decide (row_id r = row_id p) then p :: h else r :: put p h
  end.

Definition put_all (rows heap : list row) : list row :=
  foldl (fun h p => put p h) heap rows.

(** What the executed statement does with several rows. *)
Definition upsert_all (k : string) (cs : list string) (rows heap : list row) :=
  foldl (fun h p => upsert k cs p h) heap rows.

(** *** Entity kinds and the method of each *)

Inductive kind := KEvent | KPending | KToken | KBalance | KOtc | KOtcRecord.

#[global] Instance kind_eq_dec : EqDecision kind.
Proof. solve_decision. Defined.

Definition table_of (k : kind) : Table :=
  match k with
  | KEvent => self.event
  | KPending => self.pending_inscriptions
  | KToken => self.token
  | KBalance => self.balance
  | KOtc => self.otc
  | KOtcRecord => self.otc_record
  end.

Definition save (k : kind) (x : pydict) : M unit :=
  match k with
  | KEvent => save_event x
  | KPending => save_pending_inscription x
  | KToken => save_token x
  | KBalance => save_balance x
  | KOtc => save_otc x
  | KOtcRecord => save_otc_record x
  end.

Definition save_error (k : kind) : string :=
  match k with
  | KEvent => "Pgsql::save_event: Failed to save event "
  | KPending => "Pgsql::save_pending_inscription: Failed to save pending inscription "
  | KToken => "Pgsql::save_token: Failed to save token "
  | KBalance => "Pgsql::save_balance: Failed to save balance "
  | KOtc => "Pgsql::save_otc: Failed to save otc "
  | KOtcRecord => "Pgsql::save_otc_record: Failed to save otc record "
  end.

(** The statement every [save_*] and [batch_save_*] method builds, and the
    shape all of these methods share. *)
Definition upsert_stmt (t : Table) (p : parameters) : statement :=
  InsertStmt (mkInsert t p (Some (["id"], colnames t))).

Definition upsert_call (msg : string) (t : Table) (p : parameters) : M unit :=
  try_except
    (let* _ := acquire in
     let* _ := execute (upsert_stmt t p) in
     ret tt)
    (fun e => raise (msg +:+ e)).

Definition params_of_list (ds : list pydict) : parameters :=
  match ds with [] => Single ∅ | _ :: _ => Multi ds end.

(** The statement went through: its compiled rows were written over the
    relation, none with a NULL key and no two with the same key. *)
Definition applied (t : Table) (p : parameters) (w w' : World) : Prop :=
  ∃ rows heap,
    compile_values t p = Ok rows ∧
    relations w !! tname t = Some heap ∧
    relations w' = <[tname t := upsert_all "id" (colnames t) rows heap]> (relations w) ∧
    Forall (fun r => row_id r ≠ VNone) rows ∧
    NoDup (row_id <$> rows).

(** *** Relations between the world before and after a method *)

(** [m] never leaves [R]. *)
Definition respects (R : World → World → Prop) {A} (m : M A) : Prop :=
  ∀ w, R w (m w).1.

(** The relations the combinators are closed under. *)
Class WorldOrder (R : World → World → Prop) := {
  wo_refl : ∀ w, R w w;
  wo_trans : ∀ w1 w2 w3, R w1 w2 → R w2 w3 → R w1 w3;
  wo_faults : ∀ w fs, R w (set_faults fs w);
}.

(** Only the fault schedule moved. *)
Definition same_db (w w' : World) : Prop :=
  engine w' = engine w ∧ relations w' = relations w ∧ indexes w' = indexes w ∧
  types w' = types w.

(** The types of the database are the same. *)
Definition same_types (w w' : World) : Prop := types w' = types w.

(** What the statements other than INSERT can do to a relation named by [P]:
    remove it or leave it empty; every other relation stays as it is. *)
Definition ddl_step (P : string → Prop) (w w' : World) : Prop :=
  ∀ n, relations w' !! n = relations w !! n ∨
       (P n ∧ (relations w' !! n = None ∨ relations w' !! n = Some [])).

Definition ddl_ok (P : string → Prop) (q : statement) : Prop :=
  match q with
  | DropTableIfExistsCascade n => P n
  | CreateTable t _ => P (tname t)
  | InsertStmt _ => False
  | CreateIndex _ _ | SelectWhere _ _ _ => True
  end.

(** Every relation of the class that exists is well kept. *)
Definition world_ok (w : World) : Prop :=
  ∀ k heap, relations w !! tname (table_of k) = Some heap → heap_ok (table_of k) heap.

(** *** Sorting *)

Definition le_fst {A} (a b : Z * A) : Prop := a.1 ≤ b.1.

(** The integer a sort key denotes. *)
Definition key_value {A} (key : A → value) (x : A) : Z := default 0 (int_key (key x)).

Definition block_index (e : Event) : value := col e "block_index".

(** Ascending by [block_index]. *)
Definition ascending (l : list Event) : Prop :=
  Sorted (fun a b => key_value block_index a ≤ key_value block_index b) l.

(** *** Calls and traces *)

Inductive call :=
| call_init
| call_close
| call_clear_table (table : Table) (table_name : string) (index_list : list Index)
| call_create_table (table : Table) (index_list : list Index)
| call_clear_all_tables
| call_save (k : kind) (x : pydict)
| call_batch_save_tokens_in_dict (token : list pydict)
| call_batch_save_balances (balances : list Balance)
| call_batch_save_balances_in_dict (balances : list pydict)
| call_get_token (token_id : Z)
| call_get_pending_inscription (address : string)
| call_get_balance (address : string) (token_id : Z)
| call_get_otc (otc_id : Z)
| call_get_otc_records (oid : Z)
| call_get_events_by_block_height (block_height : Z).

(** The world after a call, whatever the call returned or raised. *)
Definition perform (c : call) (w : World) : World :=
  match c with
  | call_init => (init w).1
  | call_close => (close w).1
  | call_clear_table t n ix => (clear_table t n ix w).1
  | call_create_table t ix => (create_table t ix w).1
  | call_clear_all_tables => (clear_all_tables w).1
  | call_save k x => (save k x w).1
  | call_batch_save_tokens_in_dict l => (batch_save_tokens_in_dict l w).1
  | call_batch_save_balances l => (batch_save_balances l w).1
  | call_batch_save_balances_in_dict l => (batch_save_balances_in_dict l w).1
  | call_get_token i => (get_token i w).1
  | call_get_pending_inscription a => (get_pending_inscription a w).1
  | call_get_balance a t => (get_balance a t w).1
  | call_get_otc i => (get_otc i w).1
  | call_get_otc_records i => (get_otc_records i w).1
  | call_get_events_by_block_height h => (get_events_by_block_height h w).1
  end.

Definition run (cs : list call) (w : World) : World :=
  foldl (fun w c => perform c w) w cs.

(** A fresh database and an object on which [init] has not run; the fault
    schedule is arbitrary. *)
Definition boot (fs : list (option string)) : World := mkWorld NoEngine fs ∅ ∅ ∅.

(** A database in which no row has been stored yet: the tables that exist
    are empty.  Which tables, indexes and types exist is left open. *)
Definition empty_db (w : World) : Prop :=
  ∀ n heap, relations w !! n = Some heap → heap = [].

(** The events a trace handed to [save_event]. *)
Definition saved_events (cs : list call) : list Event :=
  flat_map (fun c => match c with call_save KEvent x => [x] | _ => [] end) cs.

(** The position of an event in the chain. *)
Definition event_pair (e : Event) : value * value :=
  (col e "block_height", col e "block_index").

(** Every stored event is one that [save_event] was given. *)
Definition events_from (es : list Event) (w : World) : Prop :=
  ∀ heap r, relations w !! "event" = Some heap → r ∈ heap →
            ∃ x, x ∈ es ∧ r = compile_row self.event x.

(** *** Events of a block *)

Definition at_height (h : Z) (e : Event) : Prop := col e "block_height" = VInt h.

(** The event carries an integer [block_index]. *)
Definition indexed (e : Event) : Prop := is_Some (int_key (block_index e)).

#[global] Instance at_height_dec h e : Decision (at_height h e).
Proof. unfold at_height. apply _. Defined.

(** *** Batches *)

Inductive batch :=
| tokens_in_dict (token : list pydict)
| balances_of (balances : list Balance)
| balances_in_dict (balances : list pydict).

Definition batch_save (b : batch) : M unit :=
  match b with
  | tokens_in_dict l => batch_save_tokens_in_dict l
  | balances_of l => batch_save_balances l
  | balances_in_dict l => batch_save_balances_in_dict l
  end.

Definition batch_kind (b : batch) : kind :=
  match b with
  | tokens_in_dict _ => KToken
  | balances_of _ | balances_in_dict _ => KBalance
  end.

Definition batch_params (b : batch) : parameters :=
  match b with
  | tokens_in_dict l | balances_in_dict l => params_of_list l
  | balances_of l => params_of_list (vars <$> l)
  end.

Definition batch_error (b : batch) : string :=
  match b with
  | tokens_in_dict _ => "Pgsql::batch_save_tokens_in_dict: Failed to save token "
  | balances_of _ => "Pgsql::batch_save_balances: Failed to batch save balances "
  | balances_in_dict _ =>
      "Pgsql::batch_save_balances_in_dict: Failed to batch save balances "
  end.

(** *** Point lookups *)

Inductive lookup :=
| token_by_id (token_id : Z)
| pending_by_address (address : string)
| balance_by_pair (address : string) (token_id : Z)
| otc_by_id (otc_id : Z).

Definition point_lookup (q : lookup) : M (option pydict) :=
  match q with
  | token_by_id i => get_token i
  | pending_by_address a => get_pending_inscription a
  | balance_by_pair a t => get_balance a t
  | otc_by_id i => get_otc i
  end.

Definition lookup_table (q : lookup) : Table :=
  match q with
  | token_by_id _ => self.token
  | pending_by_address _ => self.pending_inscriptions
  | balance_by_pair _ _ => self.balance
  | otc_by_id _ => self.otc
  end.

Definition lookup_key (q : lookup) : value :=
  match q with
  | token_by_id i => VInt i
  | pending_by_address a => VStr a
  | balance_by_pair a t => VStr (a +:+ "-" +:+ pretty t)
  | otc_by_id i => VInt i
  end.

Definition lookup_error (q : lookup) : string :=
  match q with
  | token_by_id _ => "Pgsql::get_token: Failed to get token "
  | pending_by_address _ =>
      "Pgsql::get_pending_inscription: Failed to get pending inscriptions "
  | balance_by_pair _ _ => "Pgsql::get_balance: Failed to get balance "
  | otc_by_id _ => "Pgsql::get_otc: Failed to get otc "
  end.

Definition lookup_query (q : lookup) : statement :=
  SelectWhere (lookup_table q) "id" (lookup_key q).

(** *** Declared defaults *)

(** What the store holds in a column the caller left out. *)
Definition declared_default (c : Column) : value := default VNone (cdefault c).

(** The columns of a table that declare a default, with the default. *)
Definition defaults_of (t : Table) : list (string * value) :=
  omap (fun c => (fun v => (cname c, v)) <$> cdefault c) (columns t).

(** *** Worlds and instances of the examples *)

Definition event_at (i : string) (h x : Z) : Event :=
  compile_row self.event
    {[ "id" := VStr i; "block_height" := VInt h; "block_index" := VInt x ]}.

Definition two_events : World :=
  mkWorld Open [] {[ "event" := [event_at "tx2" 100 2; event_at "tx1" 100 1] ]} ∅
    {[ "event_type" ]}.

Definition two_events_swapped : World :=
  mkWorld Open [] {[ "event" := [event_at "tx1" 100 1; event_at "tx2" 100 2] ]} ∅
    {[ "event_type" ]}.

Definition token_row (i : Z) (tick : string) : Token :=
  compile_row self.token {[ "id" := VInt i; "tick" := VStr tick ]}.

Definition no_tokens : World := mkWorld Open [] {[ "token" := [] ]} ∅ ∅.

Definition balance_row (i : string) (b a t : Z) : Balance :=
  compile_row self.balance
    {[ "id" := VStr i; "balance" := VDecimal b; "available_balance" := VDecimal a;
       "transferable_balance" := VDecimal t ]}.

Definition one_balance : World :=
  mkWorld Open [] {[ "balance" := [balance_row "A-1" 100 100 0] ]} ∅ ∅.

Definition no_balances : World := mkWorld Open [] {[ "balance" := [] ]} ∅ ∅.

Definition three_balances : list Balance :=
  [balance_row "A-1" 100 40 60; balance_row "B-1" 7 7 0; balance_row "C-1" 1 0 1].

Definition link_drops_at_third_row : World :=
  mkWorld Open [None; None; None; None; Some "server closed the connection unexpectedly"]
    {[ "balance" := [balance_row "A-1" 100 100 0] ]} ∅ ∅.

Definition link_down : World :=
  mkWorld Open [Some "could not connect to server"] {[ "token" := [] ]} ∅ ∅.

Definition quiet_tables : World :=
  mkWorld Open []
    {[ "otc_record" := []; "event" := [event_at "tx1" 100 1] ]} ∅
    {[ "event_type" ]}.

Definition six_tables : World :=
  mkWorld Open []
    {[ "event" := [event_at "tx1" 100 1];
       "pending_inscriptions" := [compile_row self.pending_inscriptions {[ "id" := VStr "addr1" ]}];
       "token" := [token_row 7 "orcs"];
       "balance" := [balance_row "A-1" 100 100 0];
       "otc" := [compile_row self.otc {[ "id" := VInt 9 ]}];
       "otc_record" := [compile_row self.otc_record {[ "id" := VStr "tx1" ]}] ]} ∅
    {[ "event_type" ]}.

(** A database set up for the events: the type event_type and the table
    event were created beforehand, the table holds no row, and [init] has not
    run on the object. *)
Definition event_store (fs : list (option string)) : World :=
  mkWorld NoEngine fs {[ "event" := [] ]} ∅ {[ "event_type" ]}.

Definition two_saves (e1 e2 : Event) : list call :=
  [call_init; call_save KEvent e1; call_save KEvent e2].

(** An event whose block_index was left None. *)
Definition event_without_index (i : string) (h : Z) : Event :=
  compile_row self.event {[ "id" := VStr i; "block_height" := VInt h ]}.

(** The event table after an event of index 1 and an event without index
    were saved at height 100. *)
Definition unindexed_block : World :=
  run (two_saves (event_at "a" 100 1) (event_without_index "b" 100))
      (event_store []).

(** ** Calls as invocations *)

(** [m], its value forgotten. *)
Definition erase {A} (m : M A) : M unit := fun w =>
  match m w with
  | (w', Ok _) => (w', Ok tt)
  | (w', Raise e) => (w', Raise e)
  end.

(** The method a call stands for. *)
Definition invoke (c : call) : M unit :=
  match c with
  | call_init => init
  | call_close => close
  | call_clear_table t n ix => clear_table t n ix
  | call_create_table t ix => create_table t ix
  | call_clear_all_tables => clear_all_tables
  | call_save k x => save k x
  | call_batch_save_tokens_in_dict l => batch_save_tokens_in_dict l
  | call_batch_save_balances l => batch_save_balances l
  | call_batch_save_balances_in_dict l => batch_save_balances_in_dict l
  | call_get_token i => erase (get_token i)
  | call_get_pending_inscription a => erase (get_pending_inscription a)
  | call_get_balance a t => erase (get_balance a t)
  | call_get_otc i => erase (get_otc i)
  | call_get_otc_records i => erase (get_otc_records i)
  | call_get_events_by_block_height h => erase (get_events_by_block_height h)
  end.

(** The text each method puts before the cause it re-raises.  [init] has no
    handler, and [clear_all_tables] raises what [clear_table] raised. *)
Definition call_prefix (c : call) : string :=
  match c with
  | call_init => EmptyString
  | call_close => "Pgsql::close: Failed close database connection "
  | call_clear_table _ _ _ | call_clear_all_tables =>
      "Pgsql::clear_table: Failed to drop and create tables "
  | call_create_table _ _ => "Pgsql::create_table: Failed to create tables "
  | call_save k _ => save_error k
  | call_batch_save_tokens_in_dict l => batch_error (tokens_in_dict l)
  | call_batch_save_balances l => batch_error (balances_of l)
  | call_batch_save_balances_in_dict l => batch_error (balances_in_dict l)
  | call_get_token i => lookup_error (token_by_id i)
  | call_get_pending_inscription a => lookup_error (pending_by_address a)
  | call_get_balance a t => lookup_error (balance_by_pair a t)
  | call_get_otc i => lookup_error (otc_by_id i)
  | call_get_otc_records _ => "Pgsql::get_otc_records: Failed to get otc records "
  | call_get_events_by_block_height _ =>
      "Pgsql::get_events_by_block_height: Failed to get events "
  end.

(** The six query methods. *)
Definition reads (c : call) : Prop :=
  match c with
  | call_get_token _ | call_get_pending_inscription _ | call_get_balance _ _
  | call_get_otc _ | call_get_otc_records _ | call_get_events_by_block_height _ => True
  | _ => False
  end.

(** The methods that go through [self.engine.acquire()]. *)
Definition acquires (c : call) : Prop :=
  match c with
  | call_init | call_close => False
  | _ => True
  end.

(** What [acquire] raises on a pool that is not open. *)
Definition pool_error (e : engine_state) : string :=
  match e with
  | NoEngine => "'Pgsql' object has no attribute 'engine'"
  | Closed => "Cannot acquire connection after closing pool"
  | Open => EmptyString
  end.

(** No relation that exists is removed or loses a row. *)
Definition keeps_rows (w w' : World) : Prop :=
  ∀ n heap, relations w !! n = Some heap → relations w' !! n = Some heap.

(** The entity kind a point lookup reads. *)
Definition lookup_kind (q : lookup) : kind :=
  match q with
  | token_by_id _ => KToken
  | pending_by_address _ => KPending
  | balance_by_pair _ _ => KBalance
  | otc_by_id _ => KOtc
  end.

(** The tables whose key is a string. *)
Definition string_keyed (k : kind) : Prop :=
  match k with
  | KEvent | KPending | KBalance | KOtcRecord => True
  | KToken | KOtc => False
  end.

(** The outcome of a method body as its handler re-raises it. *)
Definition wrap (prefix : string) (r : result unit) : result unit :=
  match r with
  | Ok _ => Ok tt
  | Raise e => Raise (prefix +:+ e)
  end.

(** The tables [clear_all_tables] names. *)
Definition cleared_names : list string :=
  ["token"; "balance"; "pending_inscriptions"; "otc"; "otc_record"].

(** The world after [CREATE INDEX IF NOT EXISTS] on an existing table, when
    nothing fails: the index is added unless its name is taken. *)
Definition add_index (w : World) (i : Index) : World :=
  if relation_exists (iname i) w then w
  else set_indexes (<[iname i := i]> (indexes w)) w.

(** The loop of [clear_table] and [create_table] over an index list. *)
Definition create_indexes (index_list : list Index) : M unit :=
  for_each index_list (fun index =>
    let* _ := execute (CreateIndex index true) in ret tt).

(** * Properties *)

(** ** The store at rest *)

Lemma tick_healthy w : faults w = [] → tick w = (w, Ok tt).
Proof. intros H. unfold tick. by rewrite H. Qed.

Lemma acquire_healthy w : healthy w → acquire w = (w, Ok tt).
Proof. intros [He Hf]. unfold acquire. rewrite He. by apply tick_healthy. Qed.

Lemma tick_effect w : ∃ fs, (tick w).1 = set_faults fs w.
Proof.
  unfold tick. destruct w as [e fs r i tys]. simpl.
  destruct fs as [|[c|] fs]; by eexists.
Qed.

Lemma sql_eq_decide a b : b ≠ VNone → sql_eq a b = bool_decide (a = b).
Proof. intros Hb. by destruct a, b. Qed.

(** ** The six tables *)

Lemma all_tables_keyed : Forall keyed_by_id all_tables.
Proof.
  repeat apply Forall_cons_2; try apply Forall_nil_2;
    (split; [reflexivity | compute_done]).
Qed.

Lemma table_of_keyed k : keyed_by_id (table_of k).
Proof.
  pose proof all_tables_keyed as H. rewrite Forall_forall in H. apply H.
  destruct k; apply list_elem_of_In; simpl; tauto.
Qed.

Lemma table_of_name_inj k1 k2 : tname (table_of k1) = tname (table_of k2) → k1 = k2.
Proof. by destruct k1, k2. Qed.

(** ** Compilation of the VALUES clause *)

Lemma compile_row_dom t d : shaped t (compile_row t d).
Proof.
  unfold shaped, compile_row, colnames. rewrite dom_list_to_map_L.
  by rewrite <- list_fmap_compose.
Qed.

Lemma compile_row_lookup t d c :
  NoDup (colnames t) → c ∈ columns t →
  compile_row t d !! cname c = Some (bound d c).
Proof.
  intros Hnd Hc. unfold compile_row. apply elem_of_list_to_map_1.
  - by rewrite <- list_fmap_compose.
  - apply list_elem_of_fmap. by exists c.
Qed.

(** A fully formed instance compiles to itself. *)
Lemma compile_row_id t x :
  NoDup (colnames t) → shaped t x → compile_row t x = x.
Proof.
  intros Hnd Hx. apply map_eq. intros k.
  destruct (decide (k ∈ colnames t)) as [Hk|Hk].
  - apply list_elem_of_fmap in Hk as (c & -> & Hc).
    rewrite compile_row_lookup by done. unfold bound.
    assert (cname c ∈ dom x) as [v Hv]%elem_of_dom.
    { rewrite Hx. apply elem_of_list_to_set, list_elem_of_fmap. by exists c. }
    by rewrite Hv.
  - assert (k ∉ dom x) as Hx'.
    { rewrite Hx. by rewrite elem_of_list_to_set. }
    apply not_elem_of_dom in Hx'. rewrite Hx'.
    apply not_elem_of_dom. rewrite compile_row_dom. by rewrite elem_of_list_to_set.
Qed.

Lemma check_consumed_ok t (d : pydict) :
  dom d ⊆ list_to_set (colnames t) → check_consumed t d = Ok tt.
Proof.
  intros Hd. unfold check_consumed, unconsumed.
  destruct (filter _ _) as [|k ks] eqn:E; [done|].
  assert (k ∈ k :: ks) as Hk by left. rewrite <- E in Hk.
  apply list_elem_of_filter in Hk as [Hk1 Hk2]. exfalso. apply Hk1.
  apply list_elem_of_fmap in Hk2 as ([k' v] & -> & Hkv). simpl.
  apply elem_of_map_to_list in Hkv.
  assert (k' ∈ dom d) as Hdom by (apply elem_of_dom; eauto).
  apply Hd in Hdom. by apply elem_of_list_to_set in Hdom.
Qed.

Lemma instance_consumed t x : shaped t x → check_consumed t x = Ok tt.
Proof. intros Hx. apply check_consumed_ok. by rewrite Hx. Qed.

Lemma collect_ok {A B} (f : A → result B) l ys :
  collect f l = Ok ys → Forall2 (fun x y => f x = Ok y) l ys.
Proof.
  revert ys. induction l as [|x l IH]; simpl; intros ys.
  - intros [= <-]. constructor.
  - destruct (f x) as [y|] eqn:Hx; [|done].
    destruct (collect f l) as [ys'|]; [|done]. intros [= <-].
    constructor; [done|by apply IH].
Qed.

Lemma compile_multi_row_dom t d0 d r :
  compile_multi_row t d0 d = Ok r → shaped t r.
Proof.
  unfold compile_multi_row, shaped, colnames.
  destruct (collect _ _) as [kvs|] eqn:Hc; [|done]. intros [= <-].
  rewrite dom_list_to_map_L. f_equal.
  apply collect_ok in Hc. induction Hc as [|c [k v] cs kvs Hc _ IH]; csimpl; [done|].
  rewrite IH. destruct (bound_multi d0 d c); [|done]. by injection Hc as <- _.
Qed.

Lemma compile_values_shaped t p rows :
  compile_values t p = Ok rows → Forall (shaped t) rows.
Proof.
  destruct p as [d|[|d0 ds]]; simpl.
  - destruct (check_consumed t d); [|done]. intros [= <-].
    repeat constructor. apply compile_row_dom.
  - intros [= <-]. constructor.
  - destruct (check_consumed t d0); [|done].
    destruct (collect _ ds) as [rs|] eqn:Hc; [|done]. intros [= <-].
    constructor; [apply compile_row_dom|].
    apply collect_ok in Hc. induction Hc as [|d r ds' rs' Hd _ IH]; constructor; [|done].
    by eapply compile_multi_row_dom.
Qed.

(** ** The conflict clause replaces the whole row *)

Lemma lookup_do_update cs p old c :
  do_update cs p old !! c = if decide (c ∈ cs) then Some (col p c) else old !! c.
Proof.
  induction cs as [|c' cs IH]; simpl.
  - destruct (decide (c ∈ [])) as [H|H]; [by apply elem_of_nil in H | done].
  - destruct (decide (c' = c)) as [->|Hne].
    + rewrite lookup_insert_eq. destruct (decide (c ∈ c :: cs)) as [H|H]; [done|].
      exfalso. apply H. left.
    + rewrite lookup_insert_ne by done. rewrite IH.
      destruct (decide (c ∈ cs)) as [H|H], (decide (c ∈ c' :: cs)) as [H'|H']; try done.
      * exfalso. apply H'. by right.
      * apply elem_of_cons in H' as [?|?]; congruence.
Qed.

Lemma do_update_replace cs (p old : row) :
  dom p = list_to_set cs → dom old ⊆ list_to_set cs → do_update cs p old = p.
Proof.
  intros Hp Hold. apply map_eq. intros c. rewrite lookup_do_update.
  destruct (decide (c ∈ cs)) as [Hc|Hc].
  - assert (c ∈ dom p) as [v Hv]%elem_of_dom by (rewrite Hp; by apply elem_of_list_to_set).
    unfold col. by rewrite Hv.
  - assert (c ∉ dom p) as Hcp by (rewrite Hp; by rewrite elem_of_list_to_set).
    apply not_elem_of_dom in Hcp. rewrite Hcp.
    apply not_elem_of_dom. intros Hin. apply Hold in Hin.
    by apply elem_of_list_to_set in Hin.
Qed.

Lemma upsert_put cs p heap :
  dom p = list_to_set cs →
  Forall (fun r : row => dom r ⊆ list_to_set cs) heap →
  row_id p ≠ VNone →
  upsert "id" cs p heap = put p heap.
Proof.
  intros Hp Hheap Hid. induction Hheap as [|r h Hr Hh IH]; simpl; [done|].
  fold (row_id r) (row_id p). rewrite sql_eq_decide by done.
  case_bool_decide; [|by rewrite IH].
  by rewrite do_update_replace.
Qed.

Lemma heap_ok_upsert t p heap :
  shaped t p → row_id p ≠ VNone → heap_ok t heap →
  upsert "id" (colnames t) p heap = put p heap.
Proof.
  intros Hp Hid [Hsh _]. apply upsert_put; [done| |done].
  eapply Forall_impl; [exact Hsh|]. intros r [Hr _]. unfold shaped in Hr. by rewrite Hr.
Qed.
(** *** Facts about [put] *)

Lemma put_put p heap : put p (put p heap) = put p heap.
Proof.
  induction heap as [|r h IH]; csimpl.
  - by rewrite bool_decide_eq_true_2.
  - case_bool_decide as E; csimpl.
    + by rewrite bool_decide_eq_true_2.
    + rewrite bool_decide_eq_false_2 by done. by rewrite IH.
Qed.

Lemma put_elem p heap r : r ∈ put p heap → r = p ∨ r ∈ heap.
Proof.
  induction heap as [|r' h IH]; csimpl.
  - intros ->%list_elem_of_singleton. by left.
  - case_bool_decide.
    + intros [->|?]%elem_of_cons; [by left|]. right. by right.
    + intros [->|?]%elem_of_cons; [right; left|].
      destruct IH as [?|?]; [done|by left|right; by right].
Qed.

Lemma put_elem_new p heap : p ∈ put p heap.
Proof.
  induction heap as [|r' h IH]; csimpl; [left|].
  case_bool_decide; [left|by right].
Qed.

Lemma put_elem_old p heap r :
  r ∈ heap → row_id r ≠ row_id p → r ∈ put p heap.
Proof.
  induction heap as [|r' h IH]; csimpl; [by intros ?%elem_of_nil|].
  intros [->|Hr]%elem_of_cons Hne.
  - rewrite bool_decide_eq_false_2 by done. left.
  - case_bool_decide; right; [done|]. by apply IH.
Qed.

Lemma put_length_conflict p heap :
  row_id p ∈ row_id <$> heap → length (put p heap) = length heap.
Proof.
  induction heap as [|r h IH]; csimpl; [by intros ?%elem_of_nil|].
  intros [E|Hin]%elem_of_cons; case_bool_decide; csimpl; try done; try congruence.
  by rewrite IH.
Qed.

Lemma put_ids_conflict p heap :
  row_id p ∈ row_id <$> heap → row_id <$> put p heap = row_id <$> heap.
Proof.
  induction heap as [|r h IH]; csimpl; [by intros ?%elem_of_nil|].
  intros Hin. case_bool_decide as E; csimpl; [by rewrite E|].
  apply elem_of_cons in Hin as [?|Hin]; [congruence|]. by rewrite IH.
Qed.

Lemma put_ids_fresh p heap :
  row_id p ∉ row_id <$> heap → row_id <$> put p heap = (row_id <$> heap) ++ [row_id p].
Proof.
  induction heap as [|r h IH]; csimpl; [done|].
  intros Hin. apply not_elem_of_cons in Hin as [Hne Hin].
  rewrite bool_decide_eq_false_2 by done. csimpl. by rewrite IH.
Qed.

Lemma put_nodup p heap :
  NoDup (row_id <$> heap) → NoDup (row_id <$> put p heap).
Proof.
  intros Hnd. destruct (decide (row_id p ∈ row_id <$> heap)) as [Hin|Hin].
  - by rewrite put_ids_conflict.
  - rewrite put_ids_fresh by done.
    apply NoDup_app. split_and!; [done| |apply NoDup_singleton].
    by intros v Hv ->%list_elem_of_singleton.
Qed.

Lemma put_heap_ok t p heap :
  shaped t p → row_id p ≠ VNone → heap_ok t heap → heap_ok t (put p heap).
Proof.
  intros Hp Hid [Hsh Hnd]. split; [|by apply put_nodup].
  rewrite Forall_forall in Hsh. apply Forall_forall. intros r [->|Hr]%put_elem; auto.
Qed.

(** The first row a key filter finds after [put p] is [p]. *)
Lemma put_head_filter p heap v :
  row_id p = v → v ≠ VNone →
  head (filter (fun r => sql_eq (col r "id") v) (put p heap)) = Some p.
Proof.
  intros Hp Hv. induction heap as [|r h IH]; csimpl.
  - rewrite filter_cons_True; [done|]. fold (row_id p). rewrite Hp.
    rewrite sql_eq_decide by done. by apply bool_decide_pack.
  - case_bool_decide as E.
    + rewrite filter_cons_True; [done|]. fold (row_id p). rewrite Hp.
      rewrite sql_eq_decide by done. by apply bool_decide_pack.
    + rewrite filter_cons_False; [done|]. fold (row_id r).
      rewrite sql_eq_decide by done. intros ?%bool_decide_unpack. congruence.
Qed.

(** With unique keys, [p] is the only row under its key after [put p]. *)
Lemma put_filter_id p heap :
  NoDup (row_id <$> heap) →
  filter (fun r => row_id r = row_id p) (put p heap) = [p].
Proof.
  induction heap as [|r h IH]; csimpl; intros Hnd.
  - by rewrite filter_cons_True.
  - apply NoDup_cons in Hnd as [Hr Hnd]. case_bool_decide as E.
    + rewrite filter_cons_True by done. f_equal.
      destruct (filter _ h) as [|r' ?] eqn:Ef; [done|]. exfalso.
      assert (r' ∈ filter (fun r => row_id r = row_id p) h) as Hin by (rewrite Ef; left).
      apply list_elem_of_filter in Hin as [Hid Hin]. apply Hr. rewrite E, <- Hid.
      apply list_elem_of_fmap. by exists r'.
    + rewrite filter_cons_False by done. by apply IH.
Qed.

(** ** Python's [sorted] *)

Lemma insert_by_key_perm {A} (x : Z * A) l : insert_by_key x l ≡ₚ x :: l.
Proof.
  induction l as [|y l IH]; csimpl; [done|].
  destruct (y.1 <? x.1); [|done]. rewrite IH. apply Permutation_swap.
Qed.

Lemma stable_sort_perm {A} (l : list (Z * A)) : stable_sort l ≡ₚ l.
Proof.
  induction l as [|x l IH]; csimpl; [done|].
  rewrite insert_by_key_perm. by rewrite IH.
Qed.

Lemma insert_by_key_hdrel {A} (y x : Z * A) l :
  HdRel le_fst y l → le_fst y x → HdRel le_fst y (insert_by_key x l).
Proof.
  intros Hl Hx. destruct l as [|z l]; csimpl; [by constructor|].
  destruct (z.1 <? x.1); constructor; [|done]. by inversion Hl.
Qed.

Lemma insert_by_key_sorted {A} (x : Z * A) l :
  Sorted le_fst l → Sorted le_fst (insert_by_key x l).
Proof.
  induction 1 as [|y l Hs IH Hd]; csimpl.
  - repeat constructor.
  - destruct (Z.ltb_spec y.1 x.1) as [Hlt|Hge].
    + constructor; [done|]. apply insert_by_key_hdrel; [done|]. unfold le_fst. lia.
    + constructor; [by constructor|]. constructor. unfold le_fst. lia.
Qed.

Lemma stable_sort_sorted {A} (l : list (Z * A)) : Sorted le_fst (stable_sort l).
Proof.
  induction l as [|x l IH]; csimpl; [constructor|]. by apply insert_by_key_sorted.
Qed.

Lemma decorate_spec {A} (key : A → value) l d :
  decorate key l = Some d →
  d.*2 = l ∧ Forall (fun zx => int_key (key zx.2) = Some zx.1) d.
Proof.
  revert d. induction l as [|x l IH]; csimpl; intros d.
  - intros [= <-]. by split.
  - destruct (int_key (key x)) as [z|] eqn:Ez; [|done].
    destruct (decorate key l) as [d'|]; [|done]. intros [= <-].
    destruct (IH d' eq_refl) as [Hl Hd]. split; [|by constructor].
    csimpl. by rewrite Hl.
Qed.

Lemma decorate_total {A} (key : A → value) l :
  Forall (fun x => is_Some (int_key (key x))) l → is_Some (decorate key l).
Proof.
  induction 1 as [|x l [z Hz] _ [d Hd]]; csimpl; [by eexists|].
  rewrite Hz, Hd. by eexists.
Qed.

Lemma sorted_undecorate {A} (key : A → value) (d : list (Z * A)) :
  Forall (fun zx => int_key (key zx.2) = Some zx.1) d →
  Sorted le_fst d →
  Sorted (fun a b => (key_value key a ≤ key_value key b)) (d.*2).
Proof.
  intros Hd Hs. induction Hs as [|y l Hs IH Hh]; csimpl; [constructor|].
  apply Forall_cons in Hd as [Hy Hd]. constructor; [by apply IH|].
  destruct Hh as [|z l Hyz]; csimpl; constructor.
  apply Forall_cons in Hd as [Hz _]. unfold key_value. rewrite Hy, Hz. done.
Qed.

Lemma sorted_spec {A} (key : A → value) (l : list A) :
  ((2 ≤ length l)%nat → Forall (fun x => is_Some (int_key (key x))) l) →
  ∃ l', sorted l key = Ok l' ∧ l' ≡ₚ l ∧
        Sorted (fun a b => (key_value key a ≤ key_value key b)) l'.
Proof.
  intros Hl. destruct l as [|x [|y l]].
  - exists []. repeat split; constructor.
  - exists [x]. repeat split; repeat constructor.
  - specialize (Hl ltac:(simpl; lia)).
    unfold sorted. destruct (decorate_total key _ Hl) as [d Hd]. rewrite Hd.
    destruct (decorate_spec _ _ _ Hd) as [Hl' Hk].
    exists ((stable_sort d).*2). split_and!; [done| |].
    + rewrite <- Hl'. by rewrite stable_sort_perm.
    + apply sorted_undecorate; [|apply stable_sort_sorted].
      by rewrite stable_sort_perm.
Qed.

(** ** What a method can do to the world *)

#[global] Instance same_db_order : WorldOrder same_db.
Proof.
  split.
  - done.
  - intros w1 w2 w3 (?&?&?&?) (?&?&?&?). split_and!; congruence.
  - done.
Qed.

#[global] Instance ddl_step_order P : WorldOrder (ddl_step P).
Proof.
  split.
  - intros w n. by left.
  - intros w1 w2 w3 H12 H23 n. destruct (H23 n) as [E|?]; [|by right].
    rewrite E. apply H12.
  - intros w fs n. by left.
Qed.

Section respects.
Context (R : World → World → Prop) `{!WorldOrder R}.

Lemma respects_ret {A} (a : A) : respects R (ret a).
Proof. intros w. apply wo_refl. Qed.

Lemma respects_raise {A} e : respects R (@raise A e).
Proof. intros w. apply wo_refl. Qed.

Lemma respects_bind {A B} (m : M A) (k : A → M B) :
  respects R m → (∀ a, respects R (k a)) → respects R (bind m k).
Proof.
  intros Hm Hk w. unfold bind. specialize (Hm w).
  destruct (m w) as [w' [a|e]]; simpl in *; [|done].
  eapply wo_trans; [exact Hm|apply Hk].
Qed.

Lemma respects_try {A} (m : M A) (h : string → M A) :
  respects R m → (∀ e, respects R (h e)) → respects R (try_except m h).
Proof.
  intros Hm Hh w. unfold try_except. specialize (Hm w).
  destruct (m w) as [w' [a|e]]; simpl in *; [done|].
  eapply wo_trans; [exact Hm|apply Hh].
Qed.

Lemma respects_for_each {A} (xs : list A) (body : A → M unit) :
  (∀ x, respects R (body x)) → respects R (for_each xs body).
Proof.
  intros Hb. induction xs as [|x xs IH]; simpl.
  - apply respects_ret.
  - apply respects_bind; [apply Hb|by intros _].
Qed.

Lemma respects_tick : respects R tick.
Proof. intros w. destruct (tick_effect w) as [fs ->]. apply wo_faults. Qed.

Lemma respects_acquire : respects R acquire.
Proof.
  intros w. unfold acquire. destruct (engine w); try apply wo_refl.
  apply respects_tick.
Qed.

Lemma respects_write_rows k set_ rows seen heap :
  respects R (write_rows k set_ rows seen heap).
Proof.
  revert seen heap. induction rows as [|p rows IH]; intros seen heap; simpl.
  - apply respects_ret.
  - apply respects_bind; [apply respects_tick|]. intros _.
    case_bool_decide; [apply respects_raise|].
    destruct set_ as [cs|].
    + case_bool_decide; [apply respects_raise|apply IH].
    + destruct (has_key _ _ _); [apply respects_raise|apply IH].
Qed.
End respects.

(** Splits a goal about a method along its combinators. *)
Ltac respects_step :=
  first
    [ apply respects_try; [tc_solve| |intros ?]
    | apply respects_bind; [tc_solve| |intros ?]
    | apply respects_for_each; [tc_solve|intros ?]
    | apply respects_ret; tc_solve
    | apply respects_raise; tc_solve
    | apply respects_acquire; tc_solve
    | apply respects_tick; tc_solve ].

(** ** One INSERT .. ON CONFLICT statement *)

Lemma write_rows_ok k cs rows seen heap w w' heap' :
  write_rows k (Some cs) rows seen heap w = (w', Ok heap') →
  heap' = upsert_all k cs rows heap ∧
  Forall (fun p => col p k ≠ VNone ∧ col p k ∉ seen) rows ∧
  NoDup ((fun p => col p k) <$> rows).
Proof.
  revert seen heap w. induction rows as [|p rows IH]; intros seen heap w; simpl.
  - intros [= _ <-]. split_and!; [done|constructor|constructor].
  - unfold bind. destruct (tick w) as [w1 [[]|e]]; [|done].
    case_bool_decide as Hnull; [done|].
    case_bool_decide as Hseen; [done|].
    intros H. apply IH in H as (-> & Hall & Hnd). split_and!; [done| |].
    + constructor; [done|]. eapply Forall_impl; [exact Hall|].
      intros q [? Hq]. split; [done|]. intros Hin. apply Hq. by right.
    + csimpl. constructor; [|done]. intros Hin.
      apply list_elem_of_fmap in Hin as (q & Hq & Hin).
      rewrite Forall_forall in Hall. destruct (Hall q Hin) as [_ Hq'].
      apply Hq'. rewrite <- Hq. left.
Qed.

Lemma execute_upsert_spec t p w :
  pk t = ["id"] →
  engine (execute (upsert_stmt t p) w).1 = engine w ∧
  indexes (execute (upsert_stmt t p) w).1 = indexes w ∧
  match (execute (upsert_stmt t p) w).2 with
  | Raise _ => relations (execute (upsert_stmt t p) w).1 = relations w
  | Ok _ => applied t p w (execute (upsert_stmt t p) w).1
  end.
Proof.
  intros Hpk. unfold upsert_stmt, execute. simpl.
  destruct (compile_values t p) as [rows|e] eqn:Hc; [|done].
  unfold bind. destruct (tick_effect w) as [fs Hfs].
  destruct (tick w) as [w1 [[]|e]]; simpl in Hfs; subst w1; [|done].
  unfold run_insert. simpl.
  destruct (relations w !! tname t) as [heap|] eqn:Hrel; [|done].
  rewrite Hpk. simpl.
  pose proof (respects_write_rows same_db "id" (Some (colnames t)) rows [] heap
                (set_faults fs w)) as (He & Hr & Hi & _).
  destruct (write_rows "id" (Some (colnames t)) rows [] heap (set_faults fs w))
    as [w2 [heap'|e]] eqn:Hw; simpl in *; [|done].
  split_and!; [done..|].
  apply write_rows_ok in Hw as (-> & Hall & Hnd).
  exists rows, heap. split_and!; [done|done|by rewrite Hr| |done].
  eapply Forall_impl; [exact Hall|]. by intros r [? _].
Qed.

Lemma upsert_call_spec msg t p w :
  pk t = ["id"] →
  engine (upsert_call msg t p w).1 = engine w ∧
  indexes (upsert_call msg t p w).1 = indexes w ∧
  match (upsert_call msg t p w).2 with
  | Raise _ => relations (upsert_call msg t p w).1 = relations w
  | Ok _ => applied t p w (upsert_call msg t p w).1
  end.
Proof.
  intros Hpk. unfold upsert_call, try_except, bind.
  pose proof (respects_acquire same_db w) as (He & Hr & Hi & _).
  destruct (acquire w) as [w1 [[]|e]]; cbn [fst snd raise] in *; [|done].
  pose proof (execute_upsert_spec t p w1 Hpk) as (He' & Hi' & H).
  destruct (execute (upsert_stmt t p) w1) as [w2 [c|e]]; cbn [fst snd raise ret] in *.
  - split_and!; [congruence..|].
    destruct H as (rows & heap & ? & ? & ? & ? & ?).
    exists rows, heap. split_and!; try done; congruence.
  - split_and!; congruence.
Qed.

(** With nothing in the way, a single-row upsert goes through. *)
Lemma upsert_one_healthy t x w heap :
  healthy w → pk t = ["id"] →
  check_consumed t x = Ok tt →
  row_id (compile_row t x) ≠ VNone →
  relations w !! tname t = Some heap →
  execute (upsert_stmt t (Single x)) w =
    (set_relations
       (<[tname t := upsert "id" (colnames t) (compile_row t x) heap]> (relations w)) w,
     Ok []).
Proof.
  intros [He Hf] Hpk Hc Hid Hrel. unfold upsert_stmt, execute. simpl.
  rewrite Hc. unfold bind. rewrite (tick_healthy w Hf).
  unfold run_insert. simpl. rewrite Hrel, Hpk. simpl.
  unfold bind. rewrite (tick_healthy w Hf).
  unfold row_id in Hid. by rewrite bool_decide_eq_false_2.
Qed.

Lemma select_healthy t c v w heap :
  healthy w → relations w !! tname t = Some heap →
  execute (SelectWhere t c v) w = (w, Ok (filter (fun r => sql_eq (col r c) v) heap)).
Proof.
  intros [He Hf] Hrel. unfold execute, bind. rewrite (tick_healthy w Hf).
  by rewrite Hrel.
Qed.

Lemma save_unfold k x :
  save k x = upsert_call (save_error k) (table_of k) (Single x).
Proof. by destruct k. Qed.

Lemma save_healthy k x w heap :
  healthy w →
  check_consumed (table_of k) x = Ok tt →
  row_id (compile_row (table_of k) x) ≠ VNone →
  relations w !! tname (table_of k) = Some heap →
  save k x w =
    (set_relations
       (<[tname (table_of k) :=
            upsert "id" (colnames (table_of k)) (compile_row (table_of k) x) heap]>
          (relations w)) w,
     Ok tt).
Proof.
  intros Hw Hc Hid Hrel. rewrite save_unfold. unfold upsert_call, try_except, bind.
  rewrite acquire_healthy by done.
  erewrite upsert_one_healthy; try done.
  apply table_of_keyed.
Qed.

(** ** Several rows at once *)

Lemma upsert_all_put_all t rows heap :
  Forall (shaped t) rows → Forall (fun r => row_id r ≠ VNone) rows →
  heap_ok t heap →
  upsert_all "id" (colnames t) rows heap = put_all rows heap ∧
  heap_ok t (put_all rows heap).
Proof.
  intros Hs. revert heap. induction Hs as [|p rows Hp Hs IH]; intros heap Hid Hok.
  - done.
  - apply Forall_cons in Hid as [Hpid Hid]. unfold upsert_all, put_all. simpl.
    rewrite heap_ok_upsert by done.
    apply IH; [done|]. by apply put_heap_ok.
Qed.

Lemma put_all_keeps rows heap r :
  r ∈ heap → row_id r ∉ row_id <$> rows → r ∈ put_all rows heap.
Proof.
  revert heap. induction rows as [|p rows IH]; intros heap Hr Hid; [done|].
  csimpl in Hid. apply not_elem_of_cons in Hid as [Hne Hid].
  unfold put_all. simpl. apply IH; [|done]. by apply put_elem_old.
Qed.

Lemma put_all_stores rows heap :
  NoDup (row_id <$> rows) → Forall (fun p => p ∈ put_all rows heap) rows.
Proof.
  revert heap. induction rows as [|p rows IH]; intros heap Hnd; [constructor|].
  csimpl in Hnd. apply NoDup_cons in Hnd as [Hp Hnd]. constructor.
  - unfold put_all. simpl. apply put_all_keeps; [apply put_elem_new|done].
  - apply IH. done.
Qed.

Lemma put_all_elem rows heap r :
  r ∈ put_all rows heap → r ∈ rows ∨ r ∈ heap.
Proof.
  revert heap. induction rows as [|p rows IH]; intros heap; [by right|].
  unfold put_all. simpl. intros [Hr|Hr]%IH; [left; by right|].
  apply put_elem in Hr as [->|Hr]; [left; left|by right].
Qed.

(** ** Schema statements *)

Lemma execute_ddl P q : ddl_ok P q → respects (ddl_step P) (execute q).
Proof.
  intros Hq w. destruct q as [n|t b|i b|s|t c v]; [| | |done|];
    unfold execute, bind; destruct (tick_effect w) as [fs Hfs];
    destruct (tick w) as [w1 [[]|e]]; simpl in Hfs; subst w1;
    try apply (wo_faults (R:=ddl_step P)).
  - intros m. simpl. destruct (decide (m = n)) as [->|Hne].
    + right. split; [done|]. left. apply lookup_delete_eq.
    + left. by rewrite lookup_delete_ne.
  - destruct (relation_exists _ _); [destruct b; apply (wo_faults (R:=ddl_step P))|].
    destruct (missing_types _ _); [|apply (wo_faults (R:=ddl_step P))].
    intros m. simpl. destruct (decide (m = tname t)) as [->|Hne].
    + right. split; [done|]. right. apply lookup_insert_eq.
    + left. by rewrite lookup_insert_ne.
  - simpl. destruct (relations w !! itable i); [|apply (wo_faults (R:=ddl_step P))].
    destruct (relation_exists _ _); [destruct b; apply (wo_faults (R:=ddl_step P))|].
    intros m. by left.
  - simpl. destruct (relations w !! tname t); apply (wo_faults (R:=ddl_step P)).
Qed.

Lemma clear_table_ddl P table table_name index_list :
  P table_name → P (tname table) →
  respects (ddl_step P) (clear_table table table_name index_list).
Proof.
  intros Hn Ht. unfold clear_table.
  repeat first [by apply execute_ddl | respects_step].
Qed.

Lemma create_table_ddl P table index_list :
  P (tname table) → respects (ddl_step P) (create_table table index_list).
Proof.
  intros Ht. unfold create_table.
  repeat first [by apply execute_ddl | respects_step].
Qed.

(** ** The methods, one by one *)

Ltac respects_method :=
  repeat first
    [ by apply execute_ddl
    | respects_step
    | match goal with
      | |- respects _ (match ?x with _ => _ end) => destruct x
      end ].

Lemma init_ddl P : respects (ddl_step P) init.
Proof. unfold init. respects_method. intros w n. by left. Qed.

Lemma close_ddl P : respects (ddl_step P) close.
Proof.
  unfold close. respects_method. intros w. destruct (engine w); simpl;
    try apply (wo_refl (R:=ddl_step P)); revert w;
    fold (respects (ddl_step P)
            (let* _ := tick in fun w' : World => (set_engine Closed w', Ok tt)));
    respects_method; intros w n; by left.
Qed.

Lemma clear_all_tables_ddl (P : string → Prop) :
  P "token" → P "balance" → P "pending_inscriptions" → P "otc" → P "otc_record" →
  respects (ddl_step P) clear_all_tables.
Proof.
  intros. unfold clear_all_tables.
  repeat first [by apply clear_table_ddl | respects_step].
Qed.

Lemma get_token_ddl P i : respects (ddl_step P) (get_token i).
Proof. unfold get_token. respects_method. Qed.

Lemma get_pending_inscription_ddl P a : respects (ddl_step P) (get_pending_inscription a).
Proof. unfold get_pending_inscription. respects_method. Qed.

Lemma get_balance_ddl P a t : respects (ddl_step P) (get_balance a t).
Proof. unfold get_balance. respects_method. Qed.

Lemma get_otc_ddl P i : respects (ddl_step P) (get_otc i).
Proof. unfold get_otc. respects_method. Qed.

Lemma get_otc_records_ddl P i : respects (ddl_step P) (get_otc_records i).
Proof. unfold get_otc_records. respects_method. Qed.

Lemma get_events_by_block_height_ddl P h :
  respects (ddl_step P) (get_events_by_block_height h).
Proof. unfold get_events_by_block_height. respects_method. Qed.

(** A call either runs no INSERT, or is one upsert statement on one of the
    six tables. *)
Lemma perform_cases c w :
  ddl_step (fun _ => True) w (perform c w) ∨
  ∃ msg k p, perform c w = (upsert_call msg (table_of k) p w).1 ∧
             (k = KEvent → ∃ x, c = call_save KEvent x ∧ p = Single x).
Proof.
  destruct c as [| |t n ix|t ix| |k x|l|l|l|i|a|a t|i|i|h]; simpl.
  - left. apply init_ddl.
  - left. apply close_ddl.
  - left. by apply clear_table_ddl.
  - left. by apply create_table_ddl.
  - left. by apply clear_all_tables_ddl.
  - right. exists (save_error k), k, (Single x). rewrite save_unfold. split; [done|].
    intros ->. by exists x.
  - right. by eexists _, KToken, (params_of_list l).
  - right. by eexists _, KBalance, (params_of_list (vars <$> l)).
  - right. by eexists _, KBalance, (params_of_list l).
  - left. apply get_token_ddl.
  - left. apply get_pending_inscription_ddl.
  - left. apply get_balance_ddl.
  - left. apply get_otc_ddl.
  - left. apply get_otc_records_ddl.
  - left. apply get_events_by_block_height_ddl.
Qed.

(** ** The store keeps its relations well formed *)

Lemma ddl_step_world_ok P w w' : ddl_step P w w' → world_ok w → world_ok w'.
Proof.
  intros Hstep Hok k heap Hrel.
  destruct (Hstep (tname (table_of k))) as [E|[_ [E|E]]].
  - apply Hok. by rewrite <- E.
  - congruence.
  - rewrite E in Hrel. injection Hrel as <-. split; constructor.
Qed.

Lemma applied_heap k p w w' :
  applied (table_of k) p w w' → world_ok w →
  ∃ rows heap,
    compile_values (table_of k) p = Ok rows ∧
    relations w !! tname (table_of k) = Some heap ∧
    heap_ok (table_of k) heap ∧
    NoDup (row_id <$> rows) ∧
    relations w' = <[tname (table_of k) := put_all rows heap]> (relations w) ∧
    heap_ok (table_of k) (put_all rows heap).
Proof.
  intros (rows & heap & Hc & Hrel & Hrel' & Hid & Hnd) Hok.
  pose proof (Hok k heap Hrel) as Hheap.
  destruct (upsert_all_put_all (table_of k) rows heap) as [E Hok'];
    [by eapply compile_values_shaped|done|done|].
  rewrite E in Hrel'. exists rows, heap. by split_and!.
Qed.

Lemma applied_world_ok k p w w' :
  applied (table_of k) p w w' → world_ok w → world_ok w'.
Proof.
  intros Ha Hok. destruct (applied_heap k p w w' Ha Hok)
    as (rows & heap & _ & Hrel & _ & _ & Hrel' & Hheap).
  intros k' heap' Hk'. rewrite Hrel' in Hk'.
  destruct (decide (k' = k)) as [->|Hne].
  - rewrite lookup_insert_eq in Hk'. by injection Hk' as <-.
  - rewrite lookup_insert_ne in Hk'; [by apply Hok|].
    intros E. apply Hne. by apply table_of_name_inj.
Qed.

Lemma upsert_call_world_ok msg k p w :
  world_ok w → world_ok (upsert_call msg (table_of k) p w).1.
Proof.
  intros Hok.
  pose proof (upsert_call_spec msg (table_of k) p w (proj1 (table_of_keyed k)))
    as (_ & _ & H).
  destruct (upsert_call msg (table_of k) p w) as [w' [[]|e]]; simpl in *.
  - by eapply applied_world_ok.
  - intros k' heap. rewrite H. apply Hok.
Qed.

Lemma perform_world_ok c w : world_ok w → world_ok (perform c w).
Proof.
  intros Hok. destruct (perform_cases c w) as [H|(msg & k & p & -> & _)].
  - by eapply ddl_step_world_ok.
  - by apply upsert_call_world_ok.
Qed.

Lemma run_world_ok cs w : world_ok w → world_ok (run cs w).
Proof.
  revert w. induction cs as [|c cs IH]; intros w Hok; [done|].
  simpl. apply IH. by apply perform_world_ok.
Qed.

Lemma boot_empty_db fs : empty_db (boot fs).
Proof. intros n heap H. simpl in H. by rewrite lookup_empty in H. Qed.

Lemma event_store_empty_db fs : empty_db (event_store fs).
Proof.
  intros n heap H. simpl in H. apply lookup_singleton_Some in H as [_ <-]. done.
Qed.

Lemma empty_db_world_ok w : empty_db w → world_ok w.
Proof.
  intros He k heap H. rewrite (He _ _ H). split; [apply Forall_nil_2|constructor].
Qed.

(** Whatever is called on a database that holds no row yet, and whatever
    fails on the way, the relations of the class stay well kept. *)
Lemma reachable_world_ok w cs : empty_db w → world_ok (run cs w).
Proof. intros He. by apply run_world_ok, empty_db_world_ok. Qed.

(** ** Stored events come from [save_event] *)

Lemma events_from_mono es es' w :
  es ⊆ es' → events_from es w → events_from es' w.
Proof.
  intros Hsub H heap r Hrel Hr. destruct (H heap r Hrel Hr) as (x & Hx & ->).
  exists x. split; [by apply Hsub|done].
Qed.

Lemma events_from_more es0 es w :
  events_from es w → events_from (es0 ++ es) w.
Proof. apply events_from_mono. intros x Hx. apply elem_of_app. by right. Qed.

Lemma perform_events_from c es w :
  world_ok w → events_from es w →
  events_from (saved_events [c] ++ es) (perform c w).
Proof.
  intros Hok Hes. destruct (perform_cases c w) as [H|(msg & k & p & E & Hk)].
  - apply events_from_more.
    intros heap r Hrel Hr. destruct (H "event") as [E|[_ [E|E]]].
    + rewrite E in Hrel. by eapply Hes.
    + congruence.
    + rewrite E in Hrel. injection Hrel as <-. by apply elem_of_nil in Hr.
  - rewrite E.
    pose proof (upsert_call_spec msg (table_of k) p w (proj1 (table_of_keyed k)))
      as (_ & _ & H).
    destruct (upsert_call msg (table_of k) p w) as [w' [[]|e]]; simpl in *.
    + destruct (applied_heap k p w w' H Hok)
        as (rows & heap & Hc & Hrel & _ & _ & Hrel' & _).
      destruct (decide (k = KEvent)) as [->|Hne].
      * destruct (Hk eq_refl) as (x & -> & ->). simpl.
        simpl in Hc. destruct (check_consumed self.event x); [|done].
        injection Hc as <-.
        intros heap' r Hh Hr. rewrite Hrel' in Hh. simpl in Hh.
        rewrite lookup_insert_eq in Hh. injection Hh as <-.
        apply put_elem in Hr as [->|Hr].
        -- exists x. split; [left|done].
        -- destruct (Hes heap r Hrel Hr) as (y & Hy & ->). exists y. split; [by right|done].
      * apply events_from_more.
        intros heap' r Hh Hr. rewrite Hrel' in Hh.
        rewrite lookup_insert_ne in Hh; [by eapply Hes|].
        intros E'. apply Hne. by apply (table_of_name_inj k KEvent).
    + apply events_from_more.
      intros heap r Hrel Hr. rewrite H in Hrel. by eapply Hes.
Qed.

Lemma saved_events_cons c cs :
  saved_events (c :: cs) = saved_events [c] ++ saved_events cs.
Proof. unfold saved_events. simpl. by rewrite app_nil_r. Qed.

Lemma run_events_from cs es w :
  world_ok w → events_from es w →
  events_from (saved_events cs ++ es) (run cs w).
Proof.
  revert es w. induction cs as [|c cs IH]; intros es w Hok Hes; [done|].
  change (run (c :: cs) w) with (run cs (perform c w)).
  eapply events_from_mono; [|apply IH; [by apply perform_world_ok|by apply perform_events_from]].
  intros x. rewrite (saved_events_cons c cs), !elem_of_app. tauto.
Qed.

Lemma NoDup_fmap_via {A B C} (f : A → B) (g : A → C) (l : list A) :
  NoDup (g <$> l) →
  (∀ x y, x ∈ l → y ∈ l → f x = f y → g x = g y) →
  NoDup (f <$> l).
Proof.
  induction l as [|x l IH]; csimpl; intros Hnd Hinj; [constructor|].
  apply NoDup_cons in Hnd as [Hx Hnd]. constructor.
  - intros Hin. apply list_elem_of_fmap in Hin as (y & Hy & Hin).
    apply Hx. apply list_elem_of_fmap. exists y. split; [|done].
    apply Hinj; [left|by right|done].
  - apply IH; [done|]. intros y z Hy Hz. apply Hinj; by right.
Qed.

(** ** Reading events of a block *)

Lemma from_row_fmap (l : list row) : from_row <$> l = l.
Proof. unfold from_row. apply list_fmap_id. Qed.

Lemma filter_at_height h (heap : list row) :
  filter (fun r => sql_eq (col r "block_height") (VInt h)) heap =
  filter (at_height h) heap.
Proof.
  apply list_filter_iff. intros r. unfold at_height.
  rewrite sql_eq_decide by done. apply bool_decide_spec.
Qed.

Lemma get_events_by_block_height_spec h w heap :
  healthy w →
  relations w !! "event" = Some heap →
  ((2 ≤ length (filter (at_height h) heap))%nat →
   Forall (fun e => at_height h e → indexed e) heap) →
  ∃ l, get_events_by_block_height h w = (w, Ok (Some l)) ∧
       l ≡ₚ filter (at_height h) heap ∧ ascending l.
Proof.
  intros Hw Hrel Hidx.
  destruct (sorted_spec block_index (filter (at_height h) heap)) as (l & Hs & Hp & Ha).
  { intros Hlen. specialize (Hidx Hlen). apply Forall_forall. intros e [He Hin]%list_elem_of_filter.
    rewrite Forall_forall in Hidx. by apply Hidx. }
  exists l. split; [|done].
  unfold get_events_by_block_height, try_except, bind.
  rewrite acquire_healthy by done.
  rewrite (select_healthy self.event _ _ w heap) by done.
  unfold fetchall. rewrite from_row_fmap, filter_at_height.
  fold block_index. by rewrite Hs.
Qed.

(** The example of the specification, on an empty event table: the event of
    index 2 is saved first, the event of index 1 second. *)
Example events_saved_out_of_order :
  (get_events_by_block_height 100
     (run (two_saves (event_at "tx2" 100 2) (event_at "tx1" 100 1))
          (event_store []))).2 =
  Ok (Some [event_at "tx1" 100 1; event_at "tx2" 100 2]).
Proof. compute_done. Qed.

(** C1 (amended). For every block height h at which at most one event is
    stored, or at which every stored event carries an integer block_index,
    [get_events_by_block_height h] returns exactly the stored events whose
    block_height is h, in ascending order of block_index, whatever the order
    in which the store holds them: a second store holding the same events in
    another order answers with the same events, ascending as well.  The
    column block_index is nullable and [save_event] stores what it is given,
    so the condition is one on what the callers saved. *)
Theorem C1_events_by_block_height_sorted h w heap w' heap' :
  healthy w →
  relations w !! "event" = Some heap →
  ((2 ≤ length (filter (at_height h) heap))%nat →
   Forall (fun e => at_height h e → indexed e) heap) →
  healthy w' →
  relations w' !! "event" = Some heap' →
  heap' ≡ₚ heap →
  ∃ l l',
    get_events_by_block_height h w = (w, Ok (Some l)) ∧
    l ≡ₚ filter (at_height h) heap ∧ ascending l ∧
    get_events_by_block_height h w' = (w', Ok (Some l')) ∧
    l' ≡ₚ l ∧ ascending l'.
Proof.
  intros Hw Hrel Hidx Hw' Hrel' Hperm.
  destruct (get_events_by_block_height_spec h w heap) as (l & Hl & Hp & Ha); [done..|].
  destruct (get_events_by_block_height_spec h w' heap') as (l' & Hl' & Hp' & Ha');
    [done|done| |].
  { intros Hlen. rewrite Hperm in Hlen |- *. by apply Hidx. }
  exists l, l'. split_and!; [done..| |done].
  by rewrite Hp', Hp, Hperm.
Qed.

Lemma C1_witness :
  ∃ l l',
    get_events_by_block_height 100 two_events = (two_events, Ok (Some l)) ∧
    l ≡ₚ filter (at_height 100) [event_at "tx2" 100 2; event_at "tx1" 100 1] ∧
    ascending l ∧
    get_events_by_block_height 100 two_events_swapped =
      (two_events_swapped, Ok (Some l')) ∧
    l' ≡ₚ l ∧ ascending l'.
Proof.
  apply (C1_events_by_block_height_sorted 100
           two_events [event_at "tx2" 100 2; event_at "tx1" 100 1]
           two_events_swapped [event_at "tx1" 100 1; event_at "tx2" 100 2]).
  - split; reflexivity.
  - reflexivity.
  - intros _. repeat constructor; intros _; eexists; vm_compute; reflexivity.
  - split; reflexivity.
  - reflexivity.
  - apply Permutation_swap.
Defined.

(** C1 as stated fails: on an event table that exists and is empty,
    [save_event] stores an event of index 1 and an event without block_index
    at height 100, and [get_events_by_block_height 100] then raises and
    returns neither. *)
Lemma C1_counterexample :
  healthy unindexed_block ∧
  relations unindexed_block !! "event" =
    Some [event_at "a" 100 1; event_without_index "b" 100] ∧
  (∀ l, get_events_by_block_height 100 unindexed_block ≠
        (unindexed_block, Ok (Some l))) ∧
  ∃ cause,
    (get_events_by_block_height 100 unindexed_block).2 =
      Raise ("Pgsql::get_events_by_block_height: Failed to get events " +:+ cause).
Proof.
  assert ((get_events_by_block_height 100 unindexed_block).2 =
          Raise ("Pgsql::get_events_by_block_height: Failed to get events " +:+
                 "'<' not supported between instances of 'NoneType' and 'int'"))
    as E by compute_done.
  split; [split; compute_done|]. split; [compute_done|]. split.
  - intros l H. rewrite H in E. discriminate E.
  - eexists. exact E.
Qed.

Example C1_order :
  (get_events_by_block_height 100 two_events).2 =
  Ok (Some [event_at "tx1" 100 1; event_at "tx2" 100 2]).
Proof. compute_done. Qed.

(** ** Saving one instance *)

Lemma save_instance k x w heap :
  healthy w →
  relations w !! tname (table_of k) = Some heap →
  heap_ok (table_of k) heap →
  instance_of (table_of k) x →
  save k x w =
    (set_relations (<[tname (table_of k) := put x heap]> (relations w)) w, Ok tt).
Proof.
  intros Hw Hrel Hok [Hx Hid].
  assert (compile_row (table_of k) x = x) as Hcr.
  { apply compile_row_id; [apply table_of_keyed|done]. }
  rewrite (save_healthy k x w heap); [|done|by apply instance_consumed|by rewrite Hcr|done].
  rewrite Hcr. by rewrite heap_ok_upsert.
Qed.

Lemma put_other p heap r :
  row_id r ≠ row_id p → r ∈ put p heap ↔ r ∈ heap.
Proof.
  intros Hne. split.
  - intros [->|?]%put_elem; done.
  - intros Hr. by apply put_elem_old.
Qed.

(** C2. For every entity kind, when a row with the key of the incoming
    instance exists, [save] overwrites it as a whole: afterwards the one row
    under that key is the incoming instance, column for column, no row is
    added, and the rows under other keys are the ones that were there. *)
Theorem C2_whole_row_replace k (x old : pydict) w heap :
  healthy w →
  relations w !! tname (table_of k) = Some heap →
  heap_ok (table_of k) heap →
  instance_of (table_of k) x →
  old ∈ heap → row_id old = row_id x →
  ∃ heap',
    save k x w =
      (set_relations (<[tname (table_of k) := heap']> (relations w)) w, Ok tt) ∧
    filter (fun r => row_id r = row_id x) heap' = [x] ∧
    (∀ r c, r ∈ heap' → row_id r = row_id x → col r c = col x c) ∧
    length heap' = length heap ∧
    (∀ r, row_id r ≠ row_id x → r ∈ heap' ↔ r ∈ heap).
Proof.
  intros Hw Hrel Hok Hx Hold Hid. exists (put x heap).
  pose proof (put_filter_id x heap (proj2 Hok)) as Hf.
  split_and!.
  - by apply save_instance.
  - done.
  - intros r c Hr Hrid.
    assert (r ∈ filter (fun r => row_id r = row_id x) (put x heap)) as Hin
      by by apply list_elem_of_filter.
    rewrite Hf in Hin. by apply list_elem_of_singleton in Hin as ->.
  - apply put_length_conflict. rewrite <- Hid. apply list_elem_of_fmap. by exists old.
  - intros r Hr. by apply put_other.
Qed.

Lemma balance_row_instance i b a t : instance_of self.balance (balance_row i b a t).
Proof. split; [apply compile_row_dom|done]. Qed.

Lemma one_balance_ok : heap_ok self.balance [balance_row "A-1" 100 100 0].
Proof.
  split; [|apply NoDup_singleton].
  apply Forall_singleton. split; [apply compile_row_dom|done].
Qed.

Lemma C2_witness :
  ∃ heap',
    save KBalance (balance_row "A-1" 100 40 60) one_balance =
      (set_relations (<["balance" := heap']> (relations one_balance)) one_balance,
       Ok tt) ∧
    filter (fun r => row_id r = row_id (balance_row "A-1" 100 40 60)) heap' =
      [balance_row "A-1" 100 40 60] ∧
    (∀ r c, r ∈ heap' → row_id r = row_id (balance_row "A-1" 100 40 60) →
            col r c = col (balance_row "A-1" 100 40 60) c) ∧
    length heap' = length [balance_row "A-1" 100 100 0] ∧
    (∀ r, row_id r ≠ row_id (balance_row "A-1" 100 40 60) →
          r ∈ heap' ↔ r ∈ [balance_row "A-1" 100 100 0]).
Proof.
  apply (C2_whole_row_replace KBalance (balance_row "A-1" 100 40 60)
           (balance_row "A-1" 100 100 0) one_balance).
  - split; reflexivity.
  - reflexivity.
  - apply one_balance_ok.
  - apply balance_row_instance.
  - left.
  - reflexivity.
Defined.

(** C5. Saving an instance twice in succession leaves the store as saving it
    once does: the second call succeeds and changes nothing, one row is kept
    under the key, with the values written, and no key is repeated. *)
Theorem C5_save_idempotent k (x : pydict) w heap :
  healthy w →
  relations w !! tname (table_of k) = Some heap →
  heap_ok (table_of k) heap →
  instance_of (table_of k) x →
  (save k x w).2 = Ok tt ∧
  save k x (save k x w).1 = ((save k x w).1, Ok tt) ∧
  ∃ heap1,
    relations (save k x w).1 !! tname (table_of k) = Some heap1 ∧
    filter (fun r => row_id r = row_id x) heap1 = [x] ∧
    NoDup (row_id <$> heap1).
Proof.
  intros Hw Hrel Hok Hx.
  rewrite (save_instance k x w heap) by done. cbn [fst snd].
  set (w1 := set_relations _ w).
  assert (relations w1 !! tname (table_of k) = Some (put x heap)) as Hrel1
    by apply lookup_insert_eq.
  assert (heap_ok (table_of k) (put x heap)) as Hok1
    by (apply put_heap_ok; [apply Hx|apply Hx|done]).
  split_and!; [done| |].
  - rewrite (save_instance k x w1 (put x heap)); [|done..].
    f_equal. unfold w1, set_relations. simpl. f_equal.
    rewrite put_put. apply insert_insert_eq.
  - exists (put x heap). split_and!; [done| |apply Hok1].
    apply put_filter_id, Hok.
Qed.

Lemma C5_witness :
  (save KToken (token_row 7 "orcs") no_tokens).2 = Ok tt ∧
  save KToken (token_row 7 "orcs") (save KToken (token_row 7 "orcs") no_tokens).1 =
    ((save KToken (token_row 7 "orcs") no_tokens).1, Ok tt) ∧
  ∃ heap1,
    relations (save KToken (token_row 7 "orcs") no_tokens).1 !! "token" = Some heap1 ∧
    filter (fun r => row_id r = row_id (token_row 7 "orcs")) heap1 =
      [token_row 7 "orcs"] ∧
    NoDup (row_id <$> heap1).
Proof.
  apply (C5_save_idempotent KToken (token_row 7 "orcs") no_tokens []).
  - split; reflexivity.
  - reflexivity.
  - split; constructor.
  - split; [apply compile_row_dom|done].
Defined.

(** ** The composite key of a balance *)

Lemma get_balance_healthy address token_id w heap :
  healthy w →
  relations w !! "balance" = Some heap →
  get_balance address token_id w =
    (w, Ok (head (filter (fun r => sql_eq (col r "id")
                            (VStr (address +:+ "-" +:+ pretty token_id))) heap))).
Proof.
  intros Hw Hrel. unfold get_balance, try_except, bind.
  rewrite acquire_healthy by done.
  rewrite (select_healthy self.balance _ _ w heap) by done.
  unfold fetchone, from_row. by destruct (head _).
Qed.

Lemma filter_no_key v (heap : list row) :
  v ≠ VNone →
  Forall (fun r => row_id r ≠ v) heap →
  filter (fun r => sql_eq (col r "id") v) heap = [].
Proof.
  intros Hv. induction 1 as [|r h Hr _ IH]; [done|].
  rewrite filter_cons_False; [done|].
  rewrite sql_eq_decide by done. by intros ?%bool_decide_unpack.
Qed.

(** C4. After [save_balance] of a Balance whose id is the string
    "{a}-{t}", [get_balance a t] returns that Balance; and for a pair
    (a', t') whose composite key "{a'}-{t'}" no stored row carries,
    [get_balance a' t'] returns None. *)
Theorem C4_balance_composite_key address token_id (balance : Balance)
    address' token_id' w heap :
  healthy w →
  relations w !! "balance" = Some heap →
  heap_ok self.balance heap →
  instance_of self.balance balance →
  row_id balance = VStr (address +:+ "-" +:+ pretty token_id) →
  Forall (fun r => row_id r ≠ VStr (address' +:+ "-" +:+ pretty token_id')) heap →
  (save_balance balance w).2 = Ok tt ∧
  (get_balance address token_id (save_balance balance w).1).2 = Ok (Some balance) ∧
  get_balance address' token_id' w = (w, Ok None).
Proof.
  intros Hw Hrel Hok Hb Hid Hnone. split_and!.
  - change (save_balance balance) with (save KBalance balance).
    by rewrite (save_instance KBalance balance w heap).
  - change (save_balance balance) with (save KBalance balance).
    rewrite (save_instance KBalance balance w heap) by done. cbn [fst snd].
    set (w1 := set_relations _ w).
    rewrite (get_balance_healthy address token_id w1 (put balance heap));
      [|done|apply lookup_insert_eq].
    cbn [snd]. by rewrite put_head_filter.
  - rewrite (get_balance_healthy address' token_id' w heap) by done.
    by rewrite filter_no_key.
Qed.

Lemma C4_witness :
  (save_balance (balance_row "addr1-7" 5 5 0) one_balance).2 = Ok tt ∧
  (get_balance "addr1" 7 (save_balance (balance_row "addr1-7" 5 5 0) one_balance).1).2
    = Ok (Some (balance_row "addr1-7" 5 5 0)) ∧
  get_balance "addr1" 8 one_balance = (one_balance, Ok None).
Proof.
  apply (C4_balance_composite_key "addr1" 7 (balance_row "addr1-7" 5 5 0) "addr1" 8
           one_balance [balance_row "A-1" 100 100 0]).
  - split; reflexivity.
  - reflexivity.
  - apply one_balance_ok.
  - apply balance_row_instance.
  - reflexivity.
  - apply Forall_singleton. vm_compute. discriminate.
Defined.

Example C4_addr1 :
  (get_balance "addr1" 7 (save_balance (balance_row "addr1-7" 5 5 0) no_balances).1).2
    = Ok (Some (balance_row "addr1-7" 5 5 0)) ∧
  (get_balance "addr1" 8 (save_balance (balance_row "addr1-7" 5 5 0) no_balances).1).2
    = Ok None.
Proof. split; compute_done. Qed.

(** ** Batches are one statement *)

Lemma batch_save_unfold b :
  batch_save b = upsert_call (batch_error b) (table_of (batch_kind b)) (batch_params b).
Proof. by destruct b. Qed.

Lemma collect_fmap {A B} (f : A → result B) (g : A → B) l :
  (∀ x, x ∈ l → f x = Ok (g x)) → collect f l = Ok (g <$> l).
Proof.
  induction l as [|x l IH]; intros H; csimpl; [done|].
  rewrite H by left. rewrite IH; [done|]. intros y Hy. apply H. by right.
Qed.

Lemma compile_multi_row_instance t (d0 d : pydict) :
  NoDup (colnames t) → shaped t d0 → shaped t d → compile_multi_row t d0 d = Ok d.
Proof.
  intros Hnd Hd0 Hd. unfold compile_multi_row.
  rewrite (collect_fmap _ (fun c => (cname c, bound d c))).
  - f_equal. by apply compile_row_id.
  - intros c Hc.
    assert (cname c ∈ colnames t) as Hin by (apply list_elem_of_fmap; by exists c).
    assert (cname c ∈ dom d0) as [v0 Hv0]%elem_of_dom
      by (rewrite Hd0; by apply elem_of_list_to_set).
    assert (cname c ∈ dom d) as [v Hv]%elem_of_dom
      by (rewrite Hd; by apply elem_of_list_to_set).
    unfold bound_multi, rendered, bound. rewrite Hv0, Hv.
    by rewrite bool_decide_eq_true_2.
Qed.

(** A list of fully formed instances compiles to itself. *)
Lemma compile_values_instances t (ds : list pydict) :
  NoDup (colnames t) → ds ≠ [] → Forall (shaped t) ds →
  compile_values t (params_of_list ds) = Ok ds.
Proof.
  intros Hnd Hne Hds. destruct Hds as [|d0 ds Hd0 Hds]; [done|]. simpl.
  rewrite instance_consumed by done.
  rewrite (collect_fmap _ id).
  - rewrite list_fmap_id. by rewrite compile_row_id.
  - intros d Hd. rewrite Forall_forall in Hds. by apply compile_multi_row_instance; auto.
Qed.

Lemma world_ok_singleton k heap e fs ix tys :
  heap_ok (table_of k) heap →
  world_ok (mkWorld e fs {[ tname (table_of k) := heap ]} ix tys).
Proof.
  intros Hok k' heap' H. simpl in H. destruct (decide (k' = k)) as [->|Hne].
  - rewrite lookup_singleton_eq in H. by injection H as <-.
  - rewrite lookup_singleton_ne in H; [done|].
    intros E. apply Hne. symmetry. by apply table_of_name_inj.
Qed.

(** C6. A batch is written all or nothing: when [batch_save_*] raises, for
    whatever reason and at whatever row, every relation is as it was; when it
    returns, every row of the batch is in the table, and the rows are the
    instances themselves for a batch of fully formed Balance instances. *)
Theorem C6_batch_atomic b w :
  world_ok w →
  match (batch_save b w).2 with
  | Raise _ => relations (batch_save b w).1 = relations w
  | Ok _ =>
      ∃ rows heap',
        compile_values (table_of (batch_kind b)) (batch_params b) = Ok rows ∧
        relations (batch_save b w).1 !! tname (table_of (batch_kind b)) = Some heap' ∧
        Forall (fun r => r ∈ heap') rows ∧
        (∀ n, n ≠ tname (table_of (batch_kind b)) →
              relations (batch_save b w).1 !! n = relations w !! n) ∧
        (∀ l, b = balances_of l → l ≠ [] → Forall (instance_of self.balance) l →
              rows = l)
  end.
Proof.
  intros Hok. rewrite batch_save_unfold.
  pose proof (upsert_call_spec (batch_error b) (table_of (batch_kind b)) (batch_params b)
                w (proj1 (table_of_keyed _))) as (_ & _ & H).
  destruct (upsert_call _ _ _ w) as [w' [[]|e]]; cbn [fst snd] in *; [|done].
  destruct (applied_heap _ _ _ _ H Hok) as (rows & heap & Hc & Hrel & _ & Hnd & Hrel' & _).
  exists rows, (put_all rows heap). split_and!.
  - done.
  - rewrite Hrel'. apply lookup_insert_eq.
  - by apply put_all_stores.
  - intros n Hn. rewrite Hrel'. by rewrite lookup_insert_ne.
  - intros l -> Hne Hl. simpl in Hc.
    rewrite (compile_values_instances self.balance (vars <$> l)) in Hc.
    + injection Hc as <-. unfold vars. apply list_fmap_id.
    + apply (table_of_keyed KBalance).
    + by destruct l.
    + unfold vars. rewrite list_fmap_id. eapply Forall_impl; [exact Hl|]. by intros ? [? _].
Qed.

Lemma C6_witness :
  match (batch_save (balances_of three_balances) link_drops_at_third_row).2 with
  | Raise _ =>
      relations (batch_save (balances_of three_balances) link_drops_at_third_row).1 =
      relations link_drops_at_third_row
  | Ok _ =>
      ∃ rows heap',
        compile_values self.balance (params_of_list (vars <$> three_balances)) = Ok rows ∧
        relations (batch_save (balances_of three_balances) link_drops_at_third_row).1
          !! "balance" = Some heap' ∧
        Forall (fun r => r ∈ heap') rows ∧
        (∀ n, n ≠ "balance" →
              relations (batch_save (balances_of three_balances)
                           link_drops_at_third_row).1 !! n =
              relations link_drops_at_third_row !! n) ∧
        (∀ l, balances_of three_balances = balances_of l → l ≠ [] →
              Forall (instance_of self.balance) l → rows = l)
  end.
Proof.
  apply (C6_batch_atomic (balances_of three_balances) link_drops_at_third_row).
  apply (world_ok_singleton KBalance). apply one_balance_ok.
Defined.

Example C6_mid_batch_failure :
  (batch_save_balances three_balances link_drops_at_third_row).2 =
    Raise "Pgsql::batch_save_balances: Failed to batch save balances server closed the connection unexpectedly" ∧
  relations (batch_save_balances three_balances link_drops_at_third_row).1 =
    relations link_drops_at_third_row.
Proof. split; compute_done. Qed.

Example C6_batch_success :
  (batch_save_balances three_balances one_balance).2 = Ok tt ∧
  relations (batch_save_balances three_balances one_balance).1 !! "balance" =
    Some three_balances.
Proof. split; compute_done. Qed.

(** ** Point lookups *)

Lemma point_lookup_unfold q :
  point_lookup q =
  try_except
    (let* _ := acquire in
     let* result := execute (lookup_query q) in
     match fetchone result with
     | None => ret None
     | Some r => ret (Some (from_row r))
     end)
    (fun e => raise (lookup_error q +:+ e)).
Proof. by destruct q. Qed.

Lemma lookup_key_not_null q : lookup_key q ≠ VNone.
Proof. by destruct q. Qed.




Example C7_closed_pool_and_missing_table :
  (get_token 999999 (set_engine Closed no_tokens)).2 =
    Raise "Pgsql::get_token: Failed to get token Cannot acquire connection after closing pool" ∧
  (get_otc 1 no_tokens).2 =
    Raise "Pgsql::get_otc: Failed to get otc relation otc does not exist".
Proof. split; compute_done. Qed.

(** ** Columns the caller leaves out *)

Lemma row_id_compile k (d : pydict) v :
  d !! "id" = Some v → row_id (compile_row (table_of k) d) = v.
Proof.
  intros Hd. unfold row_id, col.
  destruct (table_of_keyed k) as [Hpk Hnd].
  assert (∃ c, c ∈ columns (table_of k) ∧ cname c = "id") as (c & Hc & Hn).
  { destruct k; eexists; (split; [left|reflexivity]). }
  rewrite <- Hn. rewrite compile_row_lookup by done. simpl.
  unfold bound. by rewrite Hn, Hd.
Qed.

Lemma put_fresh p heap :
  row_id p ∉ row_id <$> heap → put p heap = heap ++ [p].
Proof.
  induction heap as [|r h IH]; csimpl; [done|].
  intros Hin. apply not_elem_of_cons in Hin as [Hne Hin].
  rewrite bool_decide_eq_false_2 by done. by rewrite IH.
Qed.

(** C8 (amended). When [save] inserts a new row, a column the caller did
    not provide takes the default its table declares, and NULL when the table
    declares none.  Defaults are declared for the mint, supply and upgrade
    columns of token (zero, the empty string for first_id and last_id, the
    empty list for upgrade_records) and for pending_inscriptions.inscriptions
    (the empty list); event, balance, otc and otc_record declare none. *)
Theorem C8_unspecified_columns k (d : pydict) v w heap :
  healthy w →
  relations w !! tname (table_of k) = Some heap →
  heap_ok (table_of k) heap →
  check_consumed (table_of k) d = Ok tt →
  d !! "id" = Some v → v ≠ VNone → v ∉ row_id <$> heap →
  (∃ r,
     save k d w =
       (set_relations (<[tname (table_of k) := heap ++ [r]]> (relations w)) w, Ok tt) ∧
     row_id r = v ∧
     ∀ c, c ∈ columns (table_of k) → d !! cname c = None →
          col r (cname c) = declared_default c) ∧
  defaults_of self.token =
    [("first_number", VInt 0); ("first_id", VStr EmptyString); ("first_time", VInt 0);
     ("last_number", VInt 0); ("last_id", VStr EmptyString); ("last_time", VInt 0);
     ("minted", VInt 0); ("burned", VInt 0); ("circulating", VInt 0);
     ("holders", VInt 0); ("last_upgrade_time", VInt 0);
     ("upgrade_records", VList [])] ∧
  defaults_of self.pending_inscriptions = [("inscriptions", VList [])] ∧
  defaults_of self.event = [] ∧
  defaults_of self.balance = [] ∧
  defaults_of self.otc = [] ∧
  defaults_of self.otc_record = [].
Proof.
  intros Hw Hrel Hok Hc Hd Hv Hfresh. split; [|by split_and!].
  exists (compile_row (table_of k) d).
  pose proof (row_id_compile k d v Hd) as Hid.
  split_and!.
  - rewrite (save_healthy k d w heap); [|done|done|by rewrite Hid|done].
    rewrite heap_ok_upsert; [|apply compile_row_dom|by rewrite Hid|done].
    rewrite put_fresh; [done|by rewrite Hid].
  - done.
  - intros c Hcin Hnone. unfold col.
    rewrite compile_row_lookup; [|apply table_of_keyed|done].
    unfold bound, declared_default. by rewrite Hnone.
Qed.

Lemma C8_witness :
  (∃ r,
     save KToken {[ "id" := VInt 7; "tick" := VStr "orcs" ]} no_tokens =
       (set_relations (<["token" := [] ++ [r]]> (relations no_tokens)) no_tokens, Ok tt) ∧
     row_id r = VInt 7 ∧
     ∀ c, c ∈ columns self.token →
          ({[ "id" := VInt 7; "tick" := VStr "orcs" ]} : pydict) !! cname c = None →
          col r (cname c) = declared_default c) ∧
  defaults_of self.token =
    [("first_number", VInt 0); ("first_id", VStr EmptyString); ("first_time", VInt 0);
     ("last_number", VInt 0); ("last_id", VStr EmptyString); ("last_time", VInt 0);
     ("minted", VInt 0); ("burned", VInt 0); ("circulating", VInt 0);
     ("holders", VInt 0); ("last_upgrade_time", VInt 0);
     ("upgrade_records", VList [])] ∧
  defaults_of self.pending_inscriptions = [("inscriptions", VList [])] ∧
  defaults_of self.event = [] ∧
  defaults_of self.balance = [] ∧
  defaults_of self.otc = [] ∧
  defaults_of self.otc_record = [].
Proof.
  apply (C8_unspecified_columns KToken {[ "id" := VInt 7; "tick" := VStr "orcs" ]}
           (VInt 7) no_tokens []).
  - split; reflexivity.
  - reflexivity.
  - split; constructor.
  - compute_done.
  - reflexivity.
  - discriminate.
  - apply not_elem_of_nil.
Defined.

(** C8 as stated fails: a Balance inserted without its balance columns holds
    NULL in them, not zero, and NULL in inscription_id, not the empty
    string. *)
Lemma C8_counterexample :
  (batch_save_balances_in_dict [{[ "id" := VStr "A-1" ]}] no_balances).2 = Ok tt ∧
  ∃ r,
    relations (batch_save_balances_in_dict [{[ "id" := VStr "A-1" ]}] no_balances).1
      !! "balance" = Some [r] ∧
    col r "balance" = VNone ∧ col r "balance" ≠ VInt 0 ∧ col r "balance" ≠ VDecimal 0 ∧
    col r "inscription_id" = VNone ∧ col r "inscription_id" ≠ VStr EmptyString.
Proof.
  split; [compute_done|].
  exists (compile_row self.balance {[ "id" := VStr "A-1" ]}).
  split_and!; compute_done.
Qed.

(** ** Events and their position in the chain *)

(** C9 (amended). In every world reached through the methods of the class
    from a database that holds no row yet, no two stored events share an id;
    and no two share a (block_height, block_index) pair as long as
    [save_event] was never given two events with different ids and the same
    pair.  The table itself constrains the id only. *)
Theorem C9_event_keys_unique w0 cs heap :
  empty_db w0 →
  relations (run cs w0) !! "event" = Some heap →
  NoDup (row_id <$> heap) ∧
  ((∀ x y, x ∈ saved_events cs → y ∈ saved_events cs →
           event_pair (compile_row self.event x) = event_pair (compile_row self.event y) →
           row_id (compile_row self.event x) = row_id (compile_row self.event y)) →
   NoDup (event_pair <$> heap)).
Proof.
  intros Hw0 Hrel.
  destruct (reachable_world_ok w0 cs Hw0 KEvent heap Hrel) as [_ Hnd]. split; [done|].
  intros Hdisc. apply (NoDup_fmap_via event_pair row_id); [done|].
  assert (events_from (saved_events cs ++ []) (run cs w0)) as Hfrom.
  { apply run_events_from; [by apply empty_db_world_ok|].
    intros h r H Hr. rewrite (Hw0 _ _ H) in Hr. by apply elem_of_nil in Hr. }
  rewrite app_nil_r in Hfrom.
  intros r1 r2 Hr1 Hr2 Hpair.
  destruct (Hfrom heap r1 Hrel Hr1) as (x & Hx & ->).
  destruct (Hfrom heap r2 Hrel Hr2) as (y & Hy & ->).
  by apply Hdisc.
Qed.

Lemma C9_witness :
  NoDup (row_id <$> [event_at "tx2" 100 2; event_at "tx1" 100 1]) ∧
  NoDup (event_pair <$> [event_at "tx2" 100 2; event_at "tx1" 100 1]).
Proof.
  destruct (C9_event_keys_unique (event_store [])
              (two_saves (event_at "tx2" 100 2) (event_at "tx1" 100 1))
              [event_at "tx2" 100 2; event_at "tx1" 100 1]) as [H1 H2].
  - apply event_store_empty_db.
  - compute_done.
  - split; [exact H1|]. apply H2.
    intros x y Hx Hy. unfold two_saves, saved_events in Hx, Hy. simpl in Hx, Hy.
    apply list_elem_of_In in Hx, Hy. simpl in Hx, Hy.
    destruct Hx as [<-|[<-|[]]], Hy as [<-|[<-|[]]]; try reflexivity;
      intros H; vm_compute in H; discriminate.
Defined.

(** C9 as stated fails: on an event table that exists and is empty, two
    events with different ids and the same position are both stored. *)
Lemma C9_counterexample :
  ∃ heap,
    relations (run (two_saves (event_at "a" 100 1) (event_at "b" 100 1))
                   (event_store []))
      !! "event" = Some heap ∧
    ¬ NoDup (event_pair <$> heap).
Proof.
  exists [event_at "a" 100 1; event_at "b" 100 1]. split; [compute_done|].
  intros H. apply NoDup_cons in H as [H _]. apply H. left.
Qed.

(** ** Set lookups that find nothing *)

Lemma filter_none (c : string) v (heap : list row) :
  v ≠ VNone →
  Forall (fun r => col r c ≠ v) heap →
  filter (fun r => sql_eq (col r c) v) heap = [].
Proof.
  intros Hv. induction 1 as [|r h Hr _ IH]; [done|].
  rewrite filter_cons_False; [done|].
  rewrite sql_eq_decide by done. by intros ?%bool_decide_unpack.
Qed.

(** C10. When no OTC record carries the order id and no event the block
    height, [get_otc_records] and [get_events_by_block_height] return the
    empty list; and in no world, with or without faults, does either return
    None: the branch after [fetchall] is never taken. *)
Theorem C10_empty_list_not_none oid h w records events :
  healthy w →
  relations w !! "otc_record" = Some records →
  Forall (fun r => col r "oid" ≠ VInt oid) records →
  relations w !! "event" = Some events →
  Forall (fun e => ¬ at_height h e) events →
  get_otc_records oid w = (w, Ok (Some [])) ∧
  get_events_by_block_height h w = (w, Ok (Some [])) ∧
  (∀ w' oid', (get_otc_records oid' w').2 ≠ Ok None) ∧
  (∀ w' h', (get_events_by_block_height h' w').2 ≠ Ok None).
Proof.
  intros Hw Hrec Hnr Hev Hne. split_and!.
  - unfold get_otc_records, try_except, bind.
    rewrite acquire_healthy by done.
    rewrite (select_healthy self.otc_record _ _ w records) by done.
    by rewrite filter_none.
  - unfold get_events_by_block_height, try_except, bind.
    rewrite acquire_healthy by done.
    rewrite (select_healthy self.event _ _ w events) by done.
    by rewrite filter_none.
  - intros w' oid'. unfold get_otc_records, try_except, bind.
    destruct (acquire w') as [w1 [[]|e]]; [|done].
    by destruct (execute _ w1) as [w2 [c|e]].
  - intros w' h'. unfold get_events_by_block_height, try_except, bind.
    destruct (acquire w') as [w1 [[]|e]]; [|done].
    destruct (execute _ w1) as [w2 [c|e]]; [|done].
    unfold fetchall. by destruct (sorted _ _).
Qed.

Lemma C10_witness :
  get_otc_records 5 quiet_tables = (quiet_tables, Ok (Some [])) ∧
  get_events_by_block_height 101 quiet_tables = (quiet_tables, Ok (Some [])) ∧
  (∀ w' oid', (get_otc_records oid' w').2 ≠ Ok None) ∧
  (∀ w' h', (get_events_by_block_height h' w').2 ≠ Ok None).
Proof.
  apply (C10_empty_list_not_none 5 101 quiet_tables [] [event_at "tx1" 100 1]).
  - split; reflexivity.
  - reflexivity.
  - constructor.
  - reflexivity.
  - apply Forall_singleton. vm_compute. discriminate.
Defined.

(** ** Resetting the tables *)

(** C3. [clear_all_tables] never touches the event table: whatever the
    world, the event relation is after the call what it was before, rows
    included, and absent if it was absent. *)
Theorem C3_clear_all_tables_leaves_event w :
  relations (clear_all_tables w).1 !! "event" = relations w !! "event".
Proof.
  destruct (clear_all_tables_ddl (fun n => n ≠ "event") ltac:(done) ltac:(done)
              ltac:(done) ltac:(done) ltac:(done) w "event") as [E|[H _]]; done.
Qed.

Example C3_event_survives :
  (clear_all_tables six_tables).2 = Ok tt ∧
  relations (clear_all_tables six_tables).1 =
    {[ "event" := [event_at "tx1" 100 1]; "pending_inscriptions" := [];
       "token" := []; "balance" := []; "otc" := []; "otc_record" := [] ]}.
Proof. split; compute_done. Qed.

(** The index names of the class are not all distinct: [inscription_id] is
    declared on token, otc and otc_record, [address] on balance and
    otc_record.  Index names live in one name space, so CREATE INDEX IF NOT
    EXISTS keeps the first of each. *)
Example clear_all_tables_indexes :
  indexes (clear_all_tables (mkWorld Open [] ∅ ∅ ∅)).1 =
    list_to_map
      ((fun i => (iname i, i)) <$>
         [mkIndex "deployer" "token" "deployer";
          mkIndex "inscription_id" "token" "inscription_id";
          mkIndex "tid" "balance" "tid";
          mkIndex "address" "balance" "address";
          mkIndex "owner" "otc" "owner";
          mkIndex "tid1" "otc" "tid1";
          mkIndex "tid2" "otc" "tid2";
          mkIndex "oid" "otc_record" "oid"]).
Proof. compute_done. Qed.

Example C3_event_not_created :
  (clear_all_tables (mkWorld Open [] ∅ ∅ ∅)).2 = Ok tt ∧
  relations (clear_all_tables (mkWorld Open [] ∅ ∅ ∅)).1 !! "event" = None.
Proof. split; compute_done. Qed.

(** * Further properties of the methods *)

(** ** Calls *)

Lemma perform_invoke c w : perform c w = (invoke c w).1.
Proof.
  destruct c; simpl; try done; unfold erase;
    match goal with |- _ = (match ?m with _ => _ end).1 => by destruct m as [? [?|?]] end.
Qed.

Lemma try_except_prefix {A} (body : M A) prefix w e :
  (try_except body (fun e => raise (prefix +:+ e)) w).2 = Raise e →
  ∃ cause, e = prefix +:+ cause.
Proof.
  unfold try_except. destruct (body w) as [w' [a|c]]; simpl; [done|].
  intros [= <-]. by exists c.
Qed.

Lemma erase_raise {A} (m : M A) w e :
  (erase m w).2 = Raise e → (m w).2 = Raise e.
Proof. unfold erase. destruct (m w) as [w' [a|c]]; simpl; congruence. Qed.

(** X21. Whatever a method raises starts with the name of the method: the
    handler of every method puts its own prefix before the cause.  [init]
    has no handler and raises the bare cause, and [clear_all_tables] raises
    under the prefix of [clear_table]. *)
Theorem raise_names_the_method c w e :
  (invoke c w).2 = Raise e → ∃ cause, e = call_prefix c +:+ cause.
Proof.
  destruct c as [| |t n ix|t ix| |k x|l|l|l|i|a|a t|i|i|h]; simpl.
  - intros _. by exists e.
  - apply try_except_prefix.
  - apply try_except_prefix.
  - apply try_except_prefix.
  - unfold clear_all_tables, bind. intros H.
    repeat match type of H with
    | (let (_, _) := ?m ?w in _).2 = _ =>
        let E := fresh "E" in
        destruct (m w) as [? [[]|?]] eqn:E; cbn [snd] in H;
        [|injection H as <-; apply (f_equal snd) in E; simpl in E;
          by apply try_except_prefix in E]
    end.
    by apply try_except_prefix in H.
  - rewrite save_unfold. apply try_except_prefix.
  - apply try_except_prefix.
  - apply try_except_prefix.
  - apply try_except_prefix.
  - intros H%erase_raise. by apply try_except_prefix in H.
  - intros H%erase_raise. by apply try_except_prefix in H.
  - intros H%erase_raise. by apply try_except_prefix in H.
  - intros H%erase_raise. by apply try_except_prefix in H.
  - intros H%erase_raise. by apply try_except_prefix in H.
  - intros H%erase_raise. by apply try_except_prefix in H.
Qed.

Lemma raise_names_the_method_witness :
  ∃ cause,
    "Pgsql::get_token: Failed to get token could not connect to server" =
    call_prefix (call_get_token 999999) +:+ cause.
Proof.
  apply (raise_names_the_method (call_get_token 999999) link_down).
  reflexivity.
Defined.

(** ** A pool that is not open *)

Lemma acquire_not_open w :
  engine w ≠ Open → acquire w = (w, Raise (pool_error (engine w))).
Proof. unfold acquire. by destruct (engine w). Qed.

(** X7. On a pool that was never initialised or has been closed, every
    method that acquires a connection raises, under its own prefix, and
    leaves the world as it was: no statement is sent and the fault schedule
    is not consumed. *)
Theorem closed_pool_refuses c w :
  engine w ≠ Open → acquires c →
  ∃ cause, invoke c w = (w, Raise (call_prefix c +:+ cause)).
Proof.
  intros He Hc. exists (pool_error (engine w)).
  pose proof (acquire_not_open w He) as Ha.
  destruct c as [| |t n ix|t ix| |k x|l|l|l|i|a|a t|i|i|h]; try done; simpl;
    try rewrite save_unfold;
    unfold clear_all_tables, clear_table, create_table, upsert_call,
      batch_save_tokens_in_dict, batch_save_balances, batch_save_balances_in_dict,
      get_token, get_pending_inscription, get_balance, get_otc, get_otc_records,
      get_events_by_block_height, erase, try_except, bind;
    rewrite ?Ha; done.
Qed.

Lemma closed_pool_refuses_witness :
  ∃ cause,
    invoke (call_get_token 999999) (set_engine Closed no_tokens) =
      (set_engine Closed no_tokens,
       Raise (call_prefix (call_get_token 999999) +:+ cause)).
Proof.
  apply (closed_pool_refuses (call_get_token 999999) (set_engine Closed no_tokens)).
  - discriminate.
  - exact I.
Defined.

(** ** Types

    No statement of the class creates or drops a type. *)

#[global] Instance same_types_order : WorldOrder same_types.
Proof.
  split.
  - done.
  - intros w1 w2 w3 H12 H23. unfold same_types in *. congruence.
  - done.
Qed.

Lemma run_insert_same_types stmt rows : respects same_types (run_insert stmt rows).
Proof.
  intros w. unfold run_insert.
  destruct (relations w !! tname (into stmt)) as [heap|]; [|done].
  destruct (pk (into stmt)) as [|k [|k' ks]]; [done| |done].
  destruct (conflict stmt) as [[ie cs]|]; [case_bool_decide; [|done]|].
  - pose proof (respects_write_rows same_types k (Some cs) rows [] heap w) as Hw.
    by destruct (write_rows k (Some cs) rows [] heap w) as [w' [heap'|e]].
  - pose proof (respects_write_rows same_types k None rows [] heap w) as Hw.
    by destruct (write_rows k None rows [] heap w) as [w' [heap'|e]].
Qed.

Lemma execute_same_types q : respects same_types (execute q).
Proof.
  destruct q as [n|t b|i b|s|t c v]; unfold execute.
  - repeat respects_step. done.
  - repeat respects_step. intros w.
    destruct (relation_exists _ _); [by destruct b|].
    by destruct (missing_types _ _).
  - repeat respects_step. intros w. destruct (relations w !! itable i); [|done].
    destruct (relation_exists _ _); [by destruct b|done].
  - destruct (compile_values _ _); repeat respects_step.
    apply run_insert_same_types.
  - repeat respects_step. intros w. by destruct (relations w !! tname t).
Qed.

Ltac respects_types :=
  repeat first
    [ apply execute_same_types
    | respects_step
    | match goal with
      | |- respects _ (match ?x with _ => _ end) => destruct x
      end ].

(** Whatever is called, and whatever it returns or raises, the types of the
    database are what they were. *)
Lemma perform_same_types c w : types (perform c w) = types w.
Proof.
  change (same_types w (perform c w)).
  destruct c as [| |t n ix|t ix| |k x|l|l|l|i|a|a t|i|i|h]; simpl;
    try rewrite save_unfold;
    match goal with
    | |- same_types ?w (?m ?w).1 => revert w; change (respects same_types m)
    end;
    unfold init, close, clear_all_tables, clear_table, create_table, upsert_call,
      upsert_stmt, batch_save_tokens_in_dict, batch_save_balances,
      batch_save_balances_in_dict, get_token, get_pending_inscription, get_balance,
      get_otc, get_otc_records, get_events_by_block_height;
    respects_types.
  - done.
  - intros w. destruct (engine w); [done|..];
      revert w;
      change (respects same_types
                (let* _ := tick in fun w' : World => (set_engine Closed w', Ok tt)));
      respects_types; done.
Qed.

Lemma run_same_types cs w : types (run cs w) = types w.
Proof.
  revert w. induction cs as [|c cs IH]; intros w; [done|].
  simpl. by rewrite IH, perform_same_types.
Qed.

(** ** Reads *)

Lemma execute_select_same_db t c v : respects same_db (execute (SelectWhere t c v)).
Proof.
  intros w. unfold execute, bind. destruct (tick_effect w) as [fs Hfs].
  destruct (tick w) as [w1 [[]|e]]; simpl in Hfs; subst w1; [|done].
  by destruct (relations (set_faults fs w) !! tname t).
Qed.

Ltac respects_read :=
  repeat first
    [ apply execute_select_same_db
    | respects_step
    | match goal with
      | |- respects _ (match ?x with _ => _ end) => destruct x
      end ].

(** X8. The six query methods are read-only: in every world, faults and
    missing tables included, the engine, every relation, every index and the
    types are after the call what they were before. *)
Theorem reads_change_nothing c w :
  reads c → same_db w (perform c w).
Proof.
  destruct c as [| |t n ix|t ix| |k x|l|l|l|i|a|a t|i|i|h]; try done; intros _; simpl.
  - revert w. fold (respects same_db (get_token i)).
    unfold get_token. respects_read.
  - revert w. fold (respects same_db (get_pending_inscription a)).
    unfold get_pending_inscription. respects_read.
  - revert w. fold (respects same_db (get_balance a t)).
    unfold get_balance. respects_read.
  - revert w. fold (respects same_db (get_otc i)).
    unfold get_otc. respects_read.
  - revert w. fold (respects same_db (get_otc_records i)).
    unfold get_otc_records. respects_read.
  - revert w. fold (respects same_db (get_events_by_block_height h)).
    unfold get_events_by_block_height. respects_read.
Qed.

Lemma reads_change_nothing_witness :
  same_db link_down (perform (call_get_token 999999) link_down).
Proof. apply (reads_change_nothing (call_get_token 999999) link_down). exact I. Defined.

(** ** Creating tables *)

#[global] Instance keeps_rows_order : WorldOrder keeps_rows.
Proof.
  split.
  - by intros w n heap.
  - intros w1 w2 w3 H12 H23 n heap H. by apply H23, H12.
  - by intros w fs n heap.
Qed.

Lemma relation_exists_false n w :
  relation_exists n w = false → relations w !! n = None ∧ indexes w !! n = None.
Proof.
  unfold relation_exists. intros [H1 H2]%orb_false_elim.
  apply bool_decide_eq_false in H1, H2.
  split; apply eq_None_not_Some; done.
Qed.

Lemma execute_create_keeps_rows q :
  match q with CreateTable _ _ | CreateIndex _ _ => True | _ => False end →
  respects keeps_rows (execute q).
Proof.
  intros Hq w. destruct q as [n|t b|i b|s|t c v]; try done;
    unfold execute, bind; destruct (tick_effect w) as [fs Hfs];
    destruct (tick w) as [w1 [[]|e]]; simpl in Hfs; subst w1;
    try apply (wo_faults (R:=keeps_rows)).
  - destruct (relation_exists _ _) eqn:E; [destruct b; apply (wo_faults (R:=keeps_rows))|].
    apply relation_exists_false in E as [E _]. simpl in E.
    destruct (missing_types _ _); [|apply (wo_faults (R:=keeps_rows))].
    intros m heap H. simpl. rewrite lookup_insert_ne; [done|]. intros <-. congruence.
  - simpl. destruct (relations w !! itable i); [|apply (wo_faults (R:=keeps_rows))].
    destruct (relation_exists _ _); [destruct b; apply (wo_faults (R:=keeps_rows))|].
    by intros m heap H.
Qed.

(** X1. [create_table] never loses data: in every world, whatever table and
    index list it is given and whatever fails on the way, every relation
    that existed before the call exists after it with the same rows. *)
Theorem create_table_keeps_rows table index_list w n heap :
  relations w !! n = Some heap →
  relations (create_table table index_list w).1 !! n = Some heap.
Proof.
  revert n heap. fold (keeps_rows w (create_table table index_list w).1).
  revert w. fold (respects keeps_rows (create_table table index_list)).
  unfold create_table.
  repeat first [by apply execute_create_keeps_rows | respects_step].
Qed.

Lemma create_table_keeps_rows_witness :
  relations (create_table self.balance self.balance_index_list one_balance).1
    !! "balance" = Some [balance_row "A-1" 100 100 0].
Proof.
  apply (create_table_keeps_rows self.balance self.balance_index_list one_balance).
  reflexivity.
Defined.

(** *** The index loop on a quiet connection *)

Lemma add_index_same w i :
  engine (add_index w i) = engine w ∧ faults (add_index w i) = faults w ∧
  relations (add_index w i) = relations w.
Proof. unfold add_index. by destruct (relation_exists _ _). Qed.

Lemma add_index_exists w i m :
  relation_exists m w = true → relation_exists m (add_index w i) = true.
Proof.
  unfold add_index. destruct (relation_exists (iname i) w) eqn:E; [done|].
  unfold relation_exists. simpl. intros [H|H]%orb_true_iff; apply orb_true_iff.
  - by left.
  - right. apply bool_decide_eq_true in H. apply bool_decide_eq_true.
    destruct (decide (iname i = m)) as [->|Hne].
    + rewrite lookup_insert_eq. by eexists.
    + by rewrite lookup_insert_ne.
Qed.

Lemma add_index_named w i : relation_exists (iname i) (add_index w i) = true.
Proof.
  unfold add_index. destruct (relation_exists (iname i) w) eqn:E; [done|].
  unfold relation_exists. simpl. apply orb_true_iff. right.
  apply bool_decide_eq_true. rewrite lookup_insert_eq. by eexists.
Qed.

Lemma add_index_settled w i :
  relation_exists (iname i) w = true → add_index w i = w.
Proof. unfold add_index. by intros ->. Qed.

Lemma add_index_none w i m :
  indexes w !! m = None → m ≠ iname i → indexes (add_index w i) !! m = None.
Proof.
  intros Hm Hne. unfold add_index. destruct (relation_exists _ _); [done|].
  simpl. by rewrite lookup_insert_ne.
Qed.

Lemma add_indexes_same ix w :
  engine (foldl add_index w ix) = engine w ∧
  faults (foldl add_index w ix) = faults w ∧
  relations (foldl add_index w ix) = relations w.
Proof.
  revert w. induction ix as [|i ix IH]; intros w; [done|]. simpl.
  destruct (IH (add_index w i)) as (-> & -> & ->). apply add_index_same.
Qed.

Lemma add_indexes_exists ix w m :
  relation_exists m w = true → relation_exists m (foldl add_index w ix) = true.
Proof.
  revert w. induction ix as [|i ix IH]; intros w H; [done|]. simpl.
  by apply IH, add_index_exists.
Qed.

Lemma add_indexes_named ix w :
  Forall (fun i => relation_exists (iname i) (foldl add_index w ix) = true) ix.
Proof.
  revert w. induction ix as [|i ix IH]; intros w; [constructor|]. simpl.
  constructor; [|apply IH]. apply add_indexes_exists, add_index_named.
Qed.

Lemma add_indexes_settled ix w :
  Forall (fun i => relation_exists (iname i) w = true) ix → foldl add_index w ix = w.
Proof.
  induction 1 as [|i ix Hi _ IH]; [done|]. simpl. by rewrite add_index_settled.
Qed.

Lemma add_indexes_none ix w m :
  indexes w !! m = None → m ∉ iname <$> ix →
  indexes (foldl add_index w ix) !! m = None.
Proof.
  revert w. induction ix as [|i ix IH]; intros w Hm Hin; [done|]. simpl.
  csimpl in Hin. apply not_elem_of_cons in Hin as [Hne Hin].
  apply IH; [|done]. by apply add_index_none.
Qed.

Lemma create_index_healthy i w :
  healthy w → is_Some (relations w !! itable i) →
  execute (CreateIndex i true) w = (add_index w i, Ok []).
Proof.
  intros [He Hf] [heap Hrel]. unfold execute, bind. rewrite (tick_healthy w Hf).
  rewrite Hrel. unfold add_index. by destruct (relation_exists _ _).
Qed.

Lemma create_index_missing i w :
  healthy w → relations w !! itable i = None →
  ∃ e, execute (CreateIndex i true) w = (w, Raise e).
Proof.
  intros [He Hf] Hrel. unfold execute, bind. rewrite (tick_healthy w Hf).
  rewrite Hrel. by eexists.
Qed.

Lemma healthy_add_index w i : healthy w → healthy (add_index w i).
Proof.
  intros [He Hf]. destruct (add_index_same w i) as (He' & Hf' & _).
  split; congruence.
Qed.

Lemma create_indexes_cons i ix w :
  create_indexes (i :: ix) w =
  match execute (CreateIndex i true) w with
  | (w', Ok _) => create_indexes ix w'
  | (w', Raise e) => (w', Raise e)
  end.
Proof.
  unfold create_indexes. cbn [for_each]. unfold bind.
  by destruct (execute (CreateIndex i true) w) as [w' [c|e]].
Qed.

Lemma create_indexes_healthy ix w :
  healthy w → Forall (fun i => is_Some (relations w !! itable i)) ix →
  create_indexes ix w = (foldl add_index w ix, Ok tt).
Proof.
  revert w. induction ix as [|i ix IH]; intros w Hw Hix; [done|].
  apply Forall_cons in Hix as [Hi Hix].
  rewrite create_indexes_cons, create_index_healthy by done.
  apply IH; [by apply healthy_add_index|].
  destruct (add_index_same w i) as (_ & _ & ->). done.
Qed.

Lemma create_indexes_ok ix w w' :
  healthy w → create_indexes ix w = (w', Ok tt) →
  Forall (fun i => is_Some (relations w !! itable i)) ix.
Proof.
  revert w. induction ix as [|i ix IH]; intros w Hw H; [constructor|].
  destruct (relations w !! itable i) as [heap|] eqn:Hrel.
  - constructor; [by eexists|].
    rewrite create_indexes_cons, create_index_healthy in H by (done || by eexists).
    apply IH in H; [|by apply healthy_add_index].
    by destruct (add_index_same w i) as (_ & _ & <-).
  - destruct (create_index_missing i w Hw Hrel) as [e He].
    rewrite create_indexes_cons in H. by rewrite He in H.
Qed.


Lemma create_table_stmt_healthy t w :
  healthy w →
  relation_exists (tname t) w = true ∨ missing_types t w = [] →
  execute (CreateTable t true) w =
    (if relation_exists (tname t) w then w
     else set_relations (<[tname t := []]> (relations w)) w, Ok []).
Proof.
  intros [He Hf] Hty. unfold execute, bind. rewrite (tick_healthy w Hf).
  destruct (relation_exists _ _); [done|]. by destruct Hty as [?| ->].
Qed.

Lemma create_table_stmt_missing_type t w :
  healthy w →
  relation_exists (tname t) w = false → missing_types t w ≠ [] →
  ∃ e, execute (CreateTable t true) w = (w, Raise e).
Proof.
  intros [He Hf] Hex Hty. unfold execute, bind. rewrite (tick_healthy w Hf), Hex.
  destruct (missing_types t w) as [|name l]; [done|]. by eexists.
Qed.

Lemma create_table_healthy table index_list w :
  healthy w →
  relation_exists (tname table) w = true ∨ missing_types table w = [] →
  create_table table index_list w =
    try_except
      (create_indexes index_list)
      (fun e => raise ("Pgsql::create_table: Failed to create tables " +:+ e))
      (if relation_exists (tname table) w then w
       else set_relations (<[tname table := []]> (relations w)) w).
Proof.
  intros Hw Hty. unfold create_table, try_except, bind at 1.
  rewrite acquire_healthy by done. unfold bind at 1.
  by rewrite create_table_stmt_healthy.
Qed.

(** Without the type of one of its columns a table is not created: the call
    raises and the database is as it was. *)
Lemma create_table_missing_type table index_list w :
  healthy w →
  relation_exists (tname table) w = false → missing_types table w ≠ [] →
  ∃ e, create_table table index_list w = (w, Raise e).
Proof.
  intros Hw Hex Hty.
  destruct (create_table_stmt_missing_type table w Hw Hex Hty) as [e He].
  unfold create_table, try_except, bind at 1.
  rewrite acquire_healthy by done. unfold bind at 1. rewrite He. by eexists.
Qed.

Example create_table_event_needs_type :
  ∃ e, create_table self.event [] (mkWorld Open [] ∅ ∅ ∅) =
       (mkWorld Open [] ∅ ∅ ∅, Raise e).
Proof. by apply create_table_missing_type. Qed.

(** X2. Creating is idempotent: after a [create_table] that returned on a
    quiet connection, the same call returns again and changes nothing, no
    relation and no index. *)
Theorem create_table_twice table index_list w :
  healthy w →
  (create_table table index_list w).2 = Ok tt →
  create_table table index_list (create_table table index_list w).1 =
    ((create_table table index_list w).1, Ok tt).
Proof.
  intros Hw Hok.
  assert (relation_exists (tname table) w = true ∨ missing_types table w = [])
    as Hty.
  { destruct (relation_exists (tname table) w) eqn:Hex; [by left|right].
    destruct (missing_types table w) as [|name l] eqn:Hm; [done|].
    destruct (create_table_missing_type table index_list w Hw Hex) as [e He];
      [by rewrite Hm|].
    by rewrite He in Hok. }
  rewrite (create_table_healthy table index_list w Hw Hty) in *.
  set (w1 := if relation_exists (tname table) w then w else _) in *.
  assert (healthy w1) as Hw1.
  { unfold w1. by destruct (relation_exists _ _). }
  assert (relation_exists (tname table) w1 = true) as Ht.
  { unfold w1. destruct (relation_exists (tname table) w) eqn:E; [done|].
    unfold relation_exists. simpl. apply orb_true_iff. left.
    apply bool_decide_eq_true. rewrite lookup_insert_eq. by eexists. }
  unfold try_except in Hok |- *.
  destruct (create_indexes index_list w1) as [w2 [[]|e]] eqn:Hix; [|done].
  pose proof (create_indexes_ok _ _ _ Hw1 Hix) as Hall.
  rewrite create_indexes_healthy in Hix by done. injection Hix as <-.
  cbn [fst]. set (w2 := foldl add_index w1 index_list).
  destruct (add_indexes_same index_list w1) as (He & Hf & Hr). fold w2 in He, Hf, Hr.
  assert (healthy w2) as Hw2 by (destruct Hw1; split; congruence).
  pose proof (add_indexes_exists index_list w1 _ Ht : relation_exists _ w2 = true)
    as Ht2.
  rewrite (create_table_healthy table index_list w2 Hw2 (or_introl Ht2)), Ht2.
  unfold try_except. rewrite create_indexes_healthy; [|done|by rewrite Hr].
  rewrite add_indexes_settled; [done|]. apply add_indexes_named.
Qed.

Lemma create_table_twice_witness :
  create_table self.token self.token_index_list
    (create_table self.token self.token_index_list no_balances).1 =
  ((create_table self.token self.token_index_list no_balances).1, Ok tt).
Proof.
  apply (create_table_twice self.token self.token_index_list no_balances).
  - split; reflexivity.
  - compute_done.
Defined.

(** ** Resetting a table *)

Lemma drop_stmt_healthy n w :
  healthy w →
  execute (DropTableIfExistsCascade n) w =
    (set_indexes (filter (fun ni => itable ni.2 ≠ n) (indexes w))
       (set_relations (delete n (relations w)) w), Ok []).
Proof. intros [He Hf]. unfold execute, bind. by rewrite (tick_healthy w Hf). Qed.

Lemma clear_table_healthy table n index_list w :
  healthy w →
  tname table = n →
  indexes w !! n = None →
  Forall (fun i => itable i = n) index_list →
  missing_types table w = [] →
  ∃ w',
    clear_table table n index_list w = (w', Ok tt) ∧
    healthy w' ∧
    relations w' = <[n := []]> (relations w) ∧
    ∀ m, indexes w !! m = None → m ∉ iname <$> index_list → indexes w' !! m = None.
Proof.
  intros Hw Ht Hn Hix Hty.
  set (w1 := set_indexes (filter (fun ni => itable ni.2 ≠ n) (indexes w))
               (set_relations (delete n (relations w)) w)).
  set (w2 := set_relations (<[n := []]> (relations w1)) w1).
  assert (healthy w1) as Hw1 by done.
  assert (healthy w2) as Hw2 by done.
  assert (∀ m, indexes w !! m = None → indexes w1 !! m = None) as Hnone.
  { intros m Hm. simpl. apply map_lookup_filter_None. by left. }
  assert (relation_exists n w1 = false) as Hex.
  { unfold relation_exists. apply orb_false_intro; apply bool_decide_eq_false.
    - simpl. rewrite lookup_delete_eq. by intros [? ?].
    - rewrite Hnone by done. by intros [? ?]. }
  exists (foldl add_index w2 index_list).
  destruct (add_indexes_same index_list w2) as (He & Hf & Hr).
  split_and!.
  - unfold clear_table, try_except, bind at 1. rewrite acquire_healthy by done.
    unfold bind at 1. rewrite drop_stmt_healthy by done. fold w1.
    unfold bind at 1. rewrite create_table_stmt_healthy by (done || by right).
    rewrite Ht, Hex. fold w2.
    fold (create_indexes index_list). rewrite create_indexes_healthy; [done..|].
    eapply Forall_impl; [exact Hix|]. intros i ->. simpl.
    rewrite lookup_insert_eq. by eexists.
  - destruct Hw2. split; congruence.
  - rewrite Hr. simpl. apply insert_delete_eq.
  - intros m Hm Hin. apply add_indexes_none; [|done]. simpl. by apply Hnone.
Qed.



(** The event table is reset where its type exists; where it does not, the
    CREATE raises and no event table is there afterwards. *)
Example clear_table_event :
  (clear_table self.event "event" [] six_tables).2 = Ok tt ∧
  relations (clear_table self.event "event" [] six_tables).1 !! "event" = Some [] ∧
  (clear_table self.event "event" [] (mkWorld Open [] ∅ ∅ ∅)).2 =
    Raise ("Pgsql::clear_table: Failed to drop and create tables " +:+
           "type event_type does not exist") ∧
  relations (clear_table self.event "event" [] (mkWorld Open [] ∅ ∅ ∅)).1
    !! "event" = None.
Proof. split_and!; compute_done. Qed.

Lemma clear_all_tables_healthy w :
  healthy w →
  Forall (fun n => indexes w !! n = None) cleared_names →
  ∃ w',
    clear_all_tables w = (w', Ok tt) ∧ healthy w' ∧
    relations w' =
      <["otc_record" := []]> (<["otc" := []]> (<["pending_inscriptions" := []]>
        (<["balance" := []]> (<["token" := []]> (relations w))))).
Proof.
  intros Hw Hnone. rewrite Forall_forall in Hnone.
  assert (∀ n, n ∈ cleared_names → indexes w !! n = None) as H0 by done.
  destruct (clear_table_healthy self.token "token" self.token_index_list w)
    as (w1 & E1 & Hw1 & Hr1 & Hi1);
    [done|done|apply H0; compute_done|compute_done|done|].
  destruct (clear_table_healthy self.balance "balance" self.balance_index_list w1)
    as (w2 & E2 & Hw2 & Hr2 & Hi2);
    [done|done|apply Hi1; [apply H0|]; compute_done|compute_done|done|].
  destruct (clear_table_healthy self.pending_inscriptions "pending_inscriptions" [] w2)
    as (w3 & E3 & Hw3 & Hr3 & Hi3);
    [done|done|apply Hi2; [apply Hi1; [apply H0|]|]; compute_done|constructor|done|].
  destruct (clear_table_healthy self.otc "otc" self.otc_index_list w3)
    as (w4 & E4 & Hw4 & Hr4 & Hi4);
    [done|done|apply Hi3; [apply Hi2; [apply Hi1; [apply H0|]|]|]; compute_done
    |compute_done|done|].
  destruct (clear_table_healthy self.otc_record "otc_record" self.otc_record_index_list w4)
    as (w5 & E5 & Hw5 & Hr5 & Hi5);
    [done|done
    |apply Hi4; [apply Hi3; [apply Hi2; [apply Hi1; [apply H0|]|]|]|]; compute_done
    |compute_done|done|].
  exists w5. split_and!; [|done|by rewrite Hr5, Hr4, Hr3, Hr2, Hr1].
  unfold clear_all_tables, bind.
  rewrite E1; cbv beta iota. rewrite E2; cbv beta iota.
  rewrite E3; cbv beta iota. by rewrite E4.
Qed.

(** X4. On a quiet connection on which no index carries the name of one of
    the five tables, [clear_all_tables] returns and leaves token, balance,
    pending_inscriptions, otc and otc_record existing and empty; every
    relation under another name, the event table among them, is as it was. *)
Theorem clear_all_tables_resets_five w :
  healthy w →
  Forall (fun n => indexes w !! n = None) cleared_names →
  (clear_all_tables w).2 = Ok tt ∧
  (∀ n, n ∈ cleared_names → relations (clear_all_tables w).1 !! n = Some []) ∧
  (∀ n, n ∉ cleared_names →
        relations (clear_all_tables w).1 !! n = relations w !! n).
Proof.
  intros Hw Hnone.
  destruct (clear_all_tables_healthy w Hw Hnone) as (w' & -> & _ & Hr).
  cbn [fst snd]. rewrite Hr.
  split_and!; [done| |].
  - intros n Hn. unfold cleared_names in Hn.
    repeat (apply elem_of_cons in Hn as [->|Hn]);
      [by simplify_map_eq..|by apply elem_of_nil in Hn].
  - intros n Hn. unfold cleared_names in Hn.
    rewrite !not_elem_of_cons in Hn. destruct Hn as (?&?&?&?&?&_).
    by rewrite !lookup_insert_ne.
Qed.

Lemma clear_all_tables_resets_five_witness :
  (clear_all_tables six_tables).2 = Ok tt ∧
  (∀ n, n ∈ cleared_names → relations (clear_all_tables six_tables).1 !! n = Some []) ∧
  (∀ n, n ∉ cleared_names →
        relations (clear_all_tables six_tables).1 !! n = relations six_tables !! n).
Proof.
  apply (clear_all_tables_resets_five six_tables).
  - split; reflexivity.
  - repeat constructor.
Defined.



(** ** Point lookups on a quiet connection *)

Lemma point_lookup_healthy q w :
  healthy w →
  point_lookup q w =
    (w, match relations w !! tname (lookup_table q) with
        | Some heap =>
            Ok (head (filter (fun r => sql_eq (col r "id") (lookup_key q)) heap))
        | None =>
            Raise (lookup_error q +:+
                   ("relation " +:+ tname (lookup_table q) +:+ " does not exist"))
        end).
Proof.
  intros Hw. rewrite point_lookup_unfold. unfold try_except, bind.
  rewrite acquire_healthy by done. unfold lookup_query, execute, bind.
  rewrite (tick_healthy w (proj2 Hw)).
  destruct (relations w !! tname (lookup_table q)) as [heap|]; [|done].
  unfold fetchone, from_row. by destruct (head _).
Qed.

Lemma lookup_table_kind q : table_of (lookup_kind q) = lookup_table q.
Proof. by destruct q. Qed.

(** X5. After [clear_all_tables] has returned on a quiet connection, every
    point lookup, whatever the key, answers None, and [get_otc_records]
    answers the empty list. *)
Theorem lookups_after_clear_all_tables w q oid :
  healthy w →
  Forall (fun n => indexes w !! n = None) cleared_names →
  (point_lookup q (clear_all_tables w).1).2 = Ok None ∧
  (get_otc_records oid (clear_all_tables w).1).2 = Ok (Some []).
Proof.
  intros Hw Hnone.
  destruct (clear_all_tables_healthy w Hw Hnone) as (w' & -> & Hw' & Hr).
  cbn [fst]. split.
  - rewrite point_lookup_healthy by done. rewrite Hr. cbn [snd].
    by destruct q; simplify_map_eq.
  - unfold get_otc_records, try_except, bind.
    rewrite acquire_healthy by done.
    rewrite (select_healthy self.otc_record _ _ w' []); [done|done|].
    rewrite Hr. by simplify_map_eq.
Qed.

Lemma lookups_after_clear_all_tables_witness :
  (point_lookup (balance_by_pair "A" 1) (clear_all_tables six_tables).1).2 = Ok None ∧
  (get_otc_records 9 (clear_all_tables six_tables).1).2 = Ok (Some []).
Proof.
  apply (lookups_after_clear_all_tables six_tables (balance_by_pair "A" 1) 9).
  - split; reflexivity.
  - repeat constructor.
Defined.

(** ** What a save touches *)

(** X9. A [save_*] call touches one table and nothing else: in every
    world the engine, the indexes and every relation under another name are
    as they were, and when the call raises its own table is as it was too. *)
Theorem save_touches_one_table k x w :
  engine (save k x w).1 = engine w ∧
  indexes (save k x w).1 = indexes w ∧
  (∀ n, n ≠ tname (table_of k) → relations (save k x w).1 !! n = relations w !! n) ∧
  (∀ e, (save k x w).2 = Raise e → relations (save k x w).1 = relations w).
Proof.
  rewrite save_unfold.
  pose proof (upsert_call_spec (save_error k) (table_of k) (Single x) w
                (proj1 (table_of_keyed k))) as (He & Hi & H).
  destruct (upsert_call _ _ _ w) as [w' [[]|e]]; cbn [fst snd] in *.
  - destruct H as (rows & heap & _ & _ & Hr & _). split_and!; [done|done| |done].
    intros n Hn. rewrite Hr. by rewrite lookup_insert_ne.
  - split_and!; [done|done| |done]. intros n _. by rewrite H.
Qed.

Lemma put_length p heap :
  (length heap ≤ length (put p heap) ≤ S (length heap))%nat.
Proof.
  destruct (decide (row_id p ∈ row_id <$> heap)) as [Hin|Hin].
  - rewrite put_length_conflict by done. lia.
  - assert (length (row_id <$> put p heap) = S (length heap)) as H.
    { rewrite put_ids_fresh by done. rewrite length_app, length_fmap. simpl. lia. }
    rewrite length_fmap in H. lia.
Qed.

Lemma put_keeps_ids p heap v :
  v ∈ row_id <$> heap → v ∈ row_id <$> put p heap.
Proof.
  intros Hv. destruct (decide (row_id p ∈ row_id <$> heap)) as [Hin|Hin].
  - by rewrite put_ids_conflict.
  - rewrite put_ids_fresh by done. apply elem_of_app. by left.
Qed.

(** X10. A [save_*] call never deletes: in every world reached with well
    kept relations, whether the call returns or raises, every key stored in
    the table before is stored after, rows under other keys are the same
    rows, and the table grows by one row at most. *)
Theorem save_never_deletes k x w heap :
  world_ok w →
  relations w !! tname (table_of k) = Some heap →
  ∃ heap',
    relations (save k x w).1 !! tname (table_of k) = Some heap' ∧
    (∀ v, v ∈ row_id <$> heap → v ∈ row_id <$> heap') ∧
    (∀ r, r ∈ heap → row_id r ≠ row_id (compile_row (table_of k) x) → r ∈ heap') ∧
    (length heap ≤ length heap' ≤ S (length heap))%nat.
Proof.
  intros Hok Hrel. rewrite save_unfold.
  pose proof (upsert_call_spec (save_error k) (table_of k) (Single x) w
                (proj1 (table_of_keyed k))) as (_ & _ & H).
  destruct (upsert_call _ _ _ w) as [w' [[]|e]]; cbn [fst snd] in *.
  - destruct (applied_heap _ _ _ _ H Hok) as (rows & heap0 & Hc & Hrel0 & _ & _ & Hr & _).
    rewrite Hrel in Hrel0. injection Hrel0 as <-.
    simpl in Hc. destruct (check_consumed (table_of k) x); [|done]. injection Hc as <-.
    exists (put (compile_row (table_of k) x) heap). rewrite Hr.
    split; [apply lookup_insert_eq|]. split; [intros v; apply put_keeps_ids|].
    split; [intros r; apply put_elem_old|apply put_length].
  - exists heap. rewrite H. split; [done|]. split; [done|]. split; [done|lia].
Qed.

Lemma save_never_deletes_witness :
  ∃ heap',
    relations (save KBalance (balance_row "B-1" 7 7 0) one_balance).1 !! "balance"
      = Some heap' ∧
    (∀ v, v ∈ row_id <$> [balance_row "A-1" 100 100 0] → v ∈ row_id <$> heap') ∧
    (∀ r, r ∈ [balance_row "A-1" 100 100 0] →
          row_id r ≠ row_id (compile_row self.balance (balance_row "B-1" 7 7 0)) →
          r ∈ heap') ∧
    (length [balance_row "A-1" 100 100 0] ≤ length heap'
       ≤ S (length [balance_row "A-1" 100 100 0]))%nat.
Proof.
  apply (save_never_deletes KBalance (balance_row "B-1" 7 7 0) one_balance).
  - apply (world_ok_singleton KBalance). apply one_balance_ok.
  - reflexivity.
Defined.

(** X11. An instance with an attribute that names no column of its table is
    refused: in every world [save_*] raises and stores nothing. *)
Theorem save_unknown_attribute k x w :
  unconsumed (table_of k) x ≠ [] →
  (∃ e, (save k x w).2 = Raise e) ∧ relations (save k x w).1 = relations w.
Proof.
  intros Hu.
  assert (∃ e, (save k x w).2 = Raise e) as [e He].
  { rewrite save_unfold. unfold upsert_call, try_except, bind.
    destruct (acquire w) as [w1 [[]|e]]; [|by eexists].
    unfold upsert_stmt, execute. cbn [into params compile_values].
    unfold check_consumed. destruct (unconsumed (table_of k) x); [done|].
    by eexists. }
  split; [by exists e|].
  by apply (save_touches_one_table k x w) in He.
Qed.

Lemma save_unknown_attribute_witness :
  (∃ e, (save KBalance (<["memo" := VStr "x"]> (balance_row "A-1" 1 1 0)) one_balance).2
        = Raise e) ∧
  relations (save KBalance (<["memo" := VStr "x"]> (balance_row "A-1" 1 1 0))
               one_balance).1 = relations one_balance.
Proof.
  apply (save_unknown_attribute KBalance (<["memo" := VStr "x"]> (balance_row "A-1" 1 1 0))
           one_balance).
  compute_done.
Defined.

(** ** Keys *)

Lemma row_id_compile_none k (x : pydict) :
  col x "id" = VNone → row_id (compile_row (table_of k) x) = VNone.
Proof.
  intros Hx. unfold row_id. unfold col at 1.
  destruct (table_of_keyed k) as [_ Hnd].
  assert (∃ c, c ∈ columns (table_of k) ∧ cname c = "id" ∧ cdefault c = None)
    as (c & Hc & Hn & Hd).
  { destruct k; eexists; (split; [left|split; reflexivity]). }
  rewrite <- Hn. rewrite compile_row_lookup by done. simpl.
  unfold bound. rewrite Hn, Hd. unfold col in Hx. by destruct (x !! "id").
Qed.

(** X12. An instance of a string-keyed entity (Event, Pending_Inscriptions,
    Balance, OTC_Record) whose id is missing or None is refused: in every
    world [save_*] raises and stores nothing. *)
Theorem save_without_key k x w :
  string_keyed k → col x "id" = VNone →
  (∃ e, (save k x w).2 = Raise e) ∧ relations (save k x w).1 = relations w.
Proof.
  intros _ Hx.
  assert (∃ e, (save k x w).2 = Raise e) as [e He].
  { rewrite save_unfold.
    pose proof (upsert_call_spec (save_error k) (table_of k) (Single x) w
                  (proj1 (table_of_keyed k))) as (_ & _ & H).
    destruct (upsert_call _ _ _ w) as [w' [[]|e]]; cbn [fst snd] in *; [|by eexists].
    destruct H as (rows & heap & Hc & _ & _ & Hid & _). simpl in Hc.
    destruct (check_consumed (table_of k) x); [|done]. injection Hc as <-.
    apply Forall_inv in Hid. exfalso. apply Hid. by apply row_id_compile_none. }
  split; [by exists e|].
  by apply (save_touches_one_table k x w) in He.
Qed.

Lemma save_without_key_witness :
  (∃ e, (save KBalance (delete "id" (balance_row "A-1" 1 1 0)) one_balance).2 = Raise e) ∧
  relations (save KBalance (delete "id" (balance_row "A-1" 1 1 0)) one_balance).1 =
    relations one_balance.
Proof.
  apply (save_without_key KBalance (delete "id" (balance_row "A-1" 1 1 0)) one_balance).
  - exact I.
  - compute_done.
Defined.

Example save_without_key_message :
  (save_balance (delete "id" (balance_row "A-1" 1 1 0)) one_balance).2 =
  Raise "Pgsql::save_balance: Failed to save balance null value in column id violates not-null constraint".
Proof. compute_done. Qed.

(** X13. Save and look up: for each of the four point lookups, after
    [save_*] of a fully formed instance whose id is the key asked for, the
    lookup returns that instance. *)
Theorem lookup_after_save q (x : pydict) w heap :
  healthy w →
  relations w !! tname (lookup_table q) = Some heap →
  heap_ok (lookup_table q) heap →
  instance_of (lookup_table q) x →
  row_id x = lookup_key q →
  (save (lookup_kind q) x w).2 = Ok tt ∧
  (point_lookup q (save (lookup_kind q) x w).1).2 = Ok (Some x).
Proof.
  intros Hw Hrel Hok Hx Hid. rewrite <- lookup_table_kind in Hrel, Hok, Hx.
  rewrite (save_instance (lookup_kind q) x w heap) by done. cbn [fst snd].
  split; [done|].
  rewrite point_lookup_healthy by done. cbn [relations set_relations snd].
  rewrite <- lookup_table_kind, lookup_insert_eq.
  rewrite put_head_filter; [done|done|apply lookup_key_not_null].
Qed.

Lemma lookup_after_save_witness :
  (save (lookup_kind (token_by_id 7)) (token_row 7 "orcs") no_tokens).2 = Ok tt ∧
  (point_lookup (token_by_id 7)
     (save (lookup_kind (token_by_id 7)) (token_row 7 "orcs") no_tokens).1).2 =
    Ok (Some (token_row 7 "orcs")).
Proof.
  apply (lookup_after_save (token_by_id 7) (token_row 7 "orcs") no_tokens []).
  - split; reflexivity.
  - reflexivity.
  - split; constructor.
  - split; [apply compile_row_dom|done].
  - reflexivity.
Defined.

Lemma put_filter_other p heap v :
  v ≠ VNone → v ≠ row_id p →
  filter (fun r => sql_eq (col r "id") v) (put p heap) =
  filter (fun r => sql_eq (col r "id") v) heap.
Proof.
  intros Hv Hne.
  assert (∀ r, row_id r = row_id p → ¬ sql_eq (col r "id") v) as Hskip.
  { intros r Hr. rewrite sql_eq_decide by done. intros H%bool_decide_unpack.
    unfold row_id in *. congruence. }
  induction heap as [|r h IH]; csimpl.
  - by rewrite filter_cons_False by by apply Hskip.
  - case_bool_decide as E.
    + rewrite !filter_cons_False; [done|by apply Hskip..].
    + by rewrite !filter_cons, IH.
Qed.

(** X14. A save leaves every other lookup alone: after [save_*] of an
    instance, a point lookup on another table, or under another key of the
    same table, returns what it returned before. *)
Theorem save_keeps_other_lookups q k (x : pydict) w heap :
  healthy w →
  relations w !! tname (table_of k) = Some heap →
  heap_ok (table_of k) heap →
  instance_of (table_of k) x →
  lookup_kind q ≠ k ∨ lookup_key q ≠ row_id x →
  (point_lookup q (save k x w).1).2 = (point_lookup q w).2.
Proof.
  intros Hw Hrel Hok Hx Hq.
  rewrite (save_instance k x w heap) by done. cbn [fst].
  rewrite !point_lookup_healthy by done. cbn [relations set_relations snd].
  destruct (decide (lookup_kind q = k)) as [<-|Hne].
  - destruct Hq as [?|Hkey]; [done|].
    rewrite lookup_table_kind in *. rewrite lookup_insert_eq, Hrel.
    rewrite put_filter_other; [done|apply lookup_key_not_null|done].
  - rewrite lookup_insert_ne; [done|].
    rewrite <- lookup_table_kind. intros E. apply Hne. symmetry.
    by apply table_of_name_inj.
Qed.

Lemma save_keeps_other_lookups_witness :
  (point_lookup (balance_by_pair "A" 1)
     (save KBalance (balance_row "B-1" 7 7 0) one_balance).1).2 =
  (point_lookup (balance_by_pair "A" 1) one_balance).2.
Proof.
  apply (save_keeps_other_lookups (balance_by_pair "A" 1) KBalance
           (balance_row "B-1" 7 7 0) one_balance [balance_row "A-1" 100 100 0]).
  - split; reflexivity.
  - reflexivity.
  - apply one_balance_ok.
  - apply balance_row_instance.
  - right. compute_done.
Defined.

(** X18. Primary keys hold in all six tables: whatever sequence of methods
    is called and whatever fails on the way, on a database whose tables are
    well kept to begin with (a fresh database, and any database that holds no
    row yet, among them), every stored row has the columns of its table and a
    key that is not NULL, and no two rows of a table share an id. *)
Theorem keys_unique_in_every_table w0 cs k heap :
  world_ok w0 →
  relations (run cs w0) !! tname (table_of k) = Some heap →
  Forall (fun r => shaped (table_of k) r ∧ row_id r ≠ VNone) heap ∧
  NoDup (row_id <$> heap).
Proof. intros Hok. by apply run_world_ok. Qed.

Lemma keys_unique_in_every_table_witness :
  Forall (fun r => shaped (table_of KEvent) r ∧ row_id r ≠ VNone)
    [event_at "a" 100 1; event_at "b" 100 1] ∧
  NoDup (row_id <$> [event_at "a" 100 1; event_at "b" 100 1]).
Proof.
  apply (keys_unique_in_every_table (event_store [])
           (two_saves (event_at "a" 100 1) (event_at "b" 100 1)) KEvent).
  - apply empty_db_world_ok, event_store_empty_db.
  - compute_done.
Defined.

(** ** Batches and single saves *)

(** X15. A batch that holds the same key twice is refused as a whole: in
    every world the call raises and no relation changes, so neither of the
    two rows is stored and no last-one-wins resolution takes place. *)
Theorem batch_with_repeated_key b w rows :
  compile_values (table_of (batch_kind b)) (batch_params b) = Ok rows →
  ¬ NoDup (row_id <$> rows) →
  (∃ e, (batch_save b w).2 = Raise e) ∧
  relations (batch_save b w).1 = relations w.
Proof.
  intros Hc Hdup. rewrite batch_save_unfold.
  pose proof (upsert_call_spec (batch_error b) (table_of (batch_kind b)) (batch_params b)
                w (proj1 (table_of_keyed _))) as (_ & _ & H).
  destruct (upsert_call _ _ _ w) as [w' [[]|e]]; cbn [fst snd] in *.
  - destruct H as (rows' & heap & Hc' & _ & _ & _ & Hnd).
    rewrite Hc in Hc'. injection Hc' as <-. done.
  - split; [by eexists|done].
Qed.

Lemma batch_with_repeated_key_witness :
  (∃ e, (batch_save (balances_of [balance_row "B-1" 7 7 0; balance_row "B-1" 9 9 0])
           one_balance).2 = Raise e) ∧
  relations (batch_save (balances_of [balance_row "B-1" 7 7 0; balance_row "B-1" 9 9 0])
               one_balance).1 = relations one_balance.
Proof.
  apply (batch_with_repeated_key
           (balances_of [balance_row "B-1" 7 7 0; balance_row "B-1" 9 9 0]) one_balance
           [balance_row "B-1" 7 7 0; balance_row "B-1" 9 9 0]).
  - compute_done.
  - compute_done.
Defined.

Example batch_with_repeated_key_message :
  (batch_save_balances [balance_row "B-1" 7 7 0; balance_row "B-1" 9 9 0] one_balance).2 =
  Raise "Pgsql::batch_save_balances: Failed to batch save balances ON CONFLICT DO UPDATE command cannot affect row a second time".
Proof. compute_done. Qed.

Lemma upsert_call_wrap msg t p w :
  upsert_call msg t p w =
  ((upsert_call EmptyString t p w).1,
   wrap msg (match (upsert_call EmptyString t p w).2 with
             | Ok _ => Ok tt
             | Raise e => Raise e
             end)).
Proof.
  unfold upsert_call, try_except.
  by destruct (bind acquire _ w) as [w' [[]|e]].
Qed.

Lemma upsert_call_one msg t (x : pydict) w :
  upsert_call msg t (Multi [x]) w = upsert_call msg t (Single x) w.
Proof.
  unfold upsert_call, try_except, bind.
  destruct (acquire w) as [w1 [[]|e]]; [|done].
  unfold upsert_stmt, execute. cbn [into params compile_values collect].
  by destruct (check_consumed t x).
Qed.

(** X16. A batch of one is a single save: in every world, faults included,
    [batch_save_balances [x]] and [batch_save_balances_in_dict [x]] leave the
    world [save_balance x] leaves and [batch_save_tokens_in_dict [x]] the
    world [save_token x] leaves, returning when it returns and raising the
    same cause under their own prefix when it raises. *)
Theorem batch_of_one_is_save (x : pydict) w :
  (∃ r,
     save_balance x w = ((save_balance x w).1, wrap (save_error KBalance) r) ∧
     batch_save_balances [x] w =
       ((save_balance x w).1, wrap (batch_error (balances_of [x])) r) ∧
     batch_save_balances_in_dict [x] w =
       ((save_balance x w).1, wrap (batch_error (balances_in_dict [x])) r)) ∧
  (∃ r,
     save_token x w = ((save_token x w).1, wrap (save_error KToken) r) ∧
     batch_save_tokens_in_dict [x] w =
       ((save_token x w).1, wrap (batch_error (tokens_in_dict [x])) r)).
Proof.
  split.
  - change (save_balance x) with (upsert_call (save_error KBalance) self.balance (Single x)).
    change (batch_save_balances [x])
      with (upsert_call (batch_error (balances_of [x])) self.balance (Multi [x])).
    change (batch_save_balances_in_dict [x])
      with (upsert_call (batch_error (balances_in_dict [x])) self.balance (Multi [x])).
    rewrite !upsert_call_one.
    eexists. split_and!; rewrite upsert_call_wrap at 1; cbn [fst];
      rewrite (upsert_call_wrap (save_error KBalance)); cbn [fst]; reflexivity.
  - change (save_token x) with (upsert_call (save_error KToken) self.token (Single x)).
    change (batch_save_tokens_in_dict [x])
      with (upsert_call (batch_error (tokens_in_dict [x])) self.token (Multi [x])).
    rewrite !upsert_call_one.
    eexists. split_and!; rewrite upsert_call_wrap at 1; cbn [fst];
      rewrite (upsert_call_wrap (save_error KToken)); cbn [fst]; reflexivity.
Qed.

Lemma write_rows_healthy k cs rows seen heap w :
  faults w = [] →
  Forall (fun p => col p k ≠ VNone ∧ col p k ∉ seen) rows →
  NoDup ((fun p => col p k) <$> rows) →
  write_rows k (Some cs) rows seen heap w = (w, Ok (upsert_all k cs rows heap)).
Proof.
  intros Hf. revert seen heap.
  induction rows as [|p rows IH]; intros seen heap Hall Hnd; [done|].
  apply Forall_cons in Hall as [[Hnull Hseen] Hall].
  csimpl in Hnd. apply NoDup_cons in Hnd as [Hp Hnd].
  cbn [write_rows]. unfold bind. rewrite (tick_healthy w Hf).
  rewrite !bool_decide_eq_false_2 by done.
  rewrite IH; [done| |done].
  rewrite Forall_forall in Hall. apply Forall_forall. intros q Hq.
  destruct (Hall q Hq) as [? Hqs]. split; [done|].
  intros [E|?]%elem_of_cons; [|done]. apply Hp. rewrite <- E.
  apply list_elem_of_fmap. by exists q.
Qed.

Lemma batch_save_balances_healthy (l : list Balance) w heap :
  healthy w →
  relations w !! "balance" = Some heap →
  heap_ok self.balance heap →
  l ≠ [] →
  Forall (instance_of self.balance) l →
  NoDup (row_id <$> l) →
  batch_save_balances l w =
    (set_relations (<["balance" := put_all l heap]> (relations w)) w, Ok tt).
Proof.
  intros Hw Hrel Hok Hne Hl Hnd.
  assert (Forall (shaped self.balance) l) as Hsh
    by (eapply Forall_impl; [exact Hl|]; by intros ? [? _]).
  assert (Forall (fun r => row_id r ≠ VNone) l) as Hid
    by (eapply Forall_impl; [exact Hl|]; by intros ? [_ ?]).
  unfold batch_save_balances, try_except, bind.
  rewrite acquire_healthy by done.
  unfold values_list, insert, on_conflict_do_update, excluded, execute.
  cbn [into params conflict].
  change (match vars <$> l with [] => Single ∅ | _ :: _ => Multi (vars <$> l) end)
    with (params_of_list (vars <$> l)).
  unfold vars. rewrite list_fmap_id.
  rewrite compile_values_instances; [|apply (table_of_keyed KBalance)|done|done].
  unfold bind. rewrite (tick_healthy w (proj2 Hw)).
  unfold run_insert. cbn [into conflict]. change (tname self.balance) with "balance".
  rewrite Hrel. change (pk self.balance) with ["id"].
  cbv beta iota. rewrite bool_decide_eq_true_2 by done.
  rewrite write_rows_healthy; [|apply Hw| |done].
  - destruct (upsert_all_put_all self.balance l heap Hsh Hid Hok) as [-> _]. done.
  - eapply Forall_impl; [exact Hid|]. intros r ?. split; [done|apply not_elem_of_nil].
Qed.

Lemma set_relations_id w : set_relations (relations w) w = w.
Proof. by destruct w. Qed.

Lemma saves_healthy k (l : list pydict) w heap :
  healthy w →
  relations w !! tname (table_of k) = Some heap →
  heap_ok (table_of k) heap →
  Forall (instance_of (table_of k)) l →
  run (call_save k <$> l) w =
    set_relations (<[tname (table_of k) := put_all l heap]> (relations w)) w.
Proof.
  revert w heap. induction l as [|x l IH]; intros w heap Hw Hrel Hok Hl.
  - simpl. by rewrite insert_id, set_relations_id.
  - apply Forall_cons in Hl as [Hx Hl]. csimpl.
    rewrite (save_instance k x w heap) by done. cbn [fst].
    rewrite (IH _ (put x heap)); [| |apply lookup_insert_eq| |done].
    + unfold set_relations. simpl. by rewrite insert_insert_eq.
    + done.
    + apply put_heap_ok; [apply Hx|apply Hx|done].
Qed.

(** X17. A batch that goes through is the sequence of its saves: on a quiet
    connection, for a non-empty list of fully formed Balance instances with
    distinct ids, [batch_save_balances] returns and leaves exactly the world
    that calling [save_balance] on each instance in turn leaves. *)
Theorem batch_is_sequence_of_saves (l : list Balance) w heap :
  healthy w →
  relations w !! "balance" = Some heap →
  heap_ok self.balance heap →
  l ≠ [] →
  Forall (instance_of self.balance) l →
  NoDup (row_id <$> l) →
  batch_save_balances l w = (run (call_save KBalance <$> l) w, Ok tt).
Proof.
  intros Hw Hrel Hok Hne Hl Hnd.
  rewrite (batch_save_balances_healthy l w heap) by done.
  by rewrite (saves_healthy KBalance l w heap).
Qed.

Lemma three_balances_instances : Forall (instance_of self.balance) three_balances.
Proof.
  unfold three_balances.
  repeat apply Forall_cons_2; try apply Forall_nil_2; apply balance_row_instance.
Qed.

Lemma batch_is_sequence_of_saves_witness :
  batch_save_balances three_balances one_balance =
    (run (call_save KBalance <$> three_balances) one_balance, Ok tt).
Proof.
  apply (batch_is_sequence_of_saves three_balances one_balance
           [balance_row "A-1" 100 100 0]).
  - split; reflexivity.
  - reflexivity.
  - apply one_balance_ok.
  - discriminate.
  - apply three_balances_instances.
  - compute_done.
Defined.

(** ** Events of a block, again *)

Lemma get_events_by_block_height_healthy h w heap :
  healthy w →
  relations w !! "event" = Some heap →
  get_events_by_block_height h w =
    (w, match sorted (filter (at_height h) heap) block_index with
        | Ok l => Ok (Some l)
        | Raise e =>
            Raise ("Pgsql::get_events_by_block_height: Failed to get events " +:+ e)
        end).
Proof.
  intros Hw Hrel. unfold get_events_by_block_height, try_except, bind.
  rewrite acquire_healthy by done.
  rewrite (select_healthy self.event _ _ w heap) by done.
  unfold fetchall. rewrite from_row_fmap, filter_at_height. fold block_index.
  by destruct (sorted _ _).
Qed.

Lemma insert_by_key_filter {A} z (x : Z * A) l :
  filter (fun p => p.1 = z) (insert_by_key x l) = filter (fun p => p.1 = z) (x :: l).
Proof.
  induction l as [|y l IH]; [done|]. cbn [insert_by_key].
  destruct (Z.ltb_spec y.1 x.1) as [Hlt|Hge]; [|done].
  rewrite (filter_cons _ y), IH, !(filter_cons _ x), (filter_cons _ y).
  destruct (decide (x.1 = z)), (decide (y.1 = z)); try done. lia.
Qed.

Lemma stable_sort_filter {A} z (l : list (Z * A)) :
  filter (fun p => p.1 = z) (stable_sort l) = filter (fun p => p.1 = z) l.
Proof.
  induction l as [|x l IH]; [done|]. cbn [stable_sort foldr].
  fold (stable_sort l). rewrite insert_by_key_filter, !(filter_cons _ x), IH. done.
Qed.

Lemma filter_undecorate {A} (key : A → value) (d : list (Z * A)) z :
  Forall (fun zx => int_key (key zx.2) = Some zx.1) d →
  filter (fun x => key_value key x = z) (d.*2) = (filter (fun p => p.1 = z) d).*2.
Proof.
  induction 1 as [|[k x] d Hx _ IH]; [done|]. csimpl.
  assert (key_value key x = k) as Hk by (unfold key_value; simpl in Hx; by rewrite Hx).
  rewrite !filter_cons, IH.
  destruct (decide (key_value key x = z)), (decide ((k, x).1 = z)); simpl in *;
    try done; congruence.
Qed.

(** Python's sort is stable: among elements with the same key the order of
    the input is kept. *)
Lemma sorted_stable {A} (key : A → value) (l l' : list A) z :
  sorted l key = Ok l' →
  filter (fun x => key_value key x = z) l' = filter (fun x => key_value key x = z) l.
Proof.
  destruct l as [|x [|y l]]; [by intros [= <-]..|].
  unfold sorted. destruct (decorate key (x :: y :: l)) as [d|] eqn:Hd; [|done].
  intros [= <-]. destruct (decorate_spec _ _ _ Hd) as [Hl Hk].
  rewrite <- Hl. rewrite !filter_undecorate; [|done|by rewrite stable_sort_perm].
  by rewrite stable_sort_filter.
Qed.

(** X19. Ties keep the order of the store: among the events that
    [get_events_by_block_height] returns, those with the same block_index
    come in the order in which the relation holds them. *)
Theorem events_with_equal_index_keep_order h w heap z :
  healthy w →
  relations w !! "event" = Some heap →
  Forall (fun e => at_height h e → indexed e) heap →
  ∃ l,
    get_events_by_block_height h w = (w, Ok (Some l)) ∧
    filter (fun e => key_value block_index e = z) l =
    filter (fun e => key_value block_index e = z) (filter (at_height h) heap).
Proof.
  intros Hw Hrel Hidx.
  destruct (sorted_spec block_index (filter (at_height h) heap)) as (l & Hs & _).
  { intros _. apply Forall_forall. intros e [He Hin]%list_elem_of_filter.
    rewrite Forall_forall in Hidx. by apply Hidx. }
  exists l. rewrite (get_events_by_block_height_healthy h w heap), Hs by done.
  split; [done|]. by eapply sorted_stable.
Qed.

Lemma events_with_equal_index_keep_order_witness :
  ∃ l,
    get_events_by_block_height 100
      (mkWorld Open []
         {[ "event" := [event_at "b" 100 1; event_at "c" 100 0; event_at "a" 100 1] ]} ∅
         {[ "event_type" ]})
    = (mkWorld Open []
         {[ "event" := [event_at "b" 100 1; event_at "c" 100 0; event_at "a" 100 1] ]} ∅
         {[ "event_type" ]},
       Ok (Some l)) ∧
    filter (fun e => key_value block_index e = 1) l =
    filter (fun e => key_value block_index e = 1)
      (filter (at_height 100)
         [event_at "b" 100 1; event_at "c" 100 0; event_at "a" 100 1]).
Proof.
  apply (events_with_equal_index_keep_order 100 _
           [event_at "b" 100 1; event_at "c" 100 0; event_at "a" 100 1] 1).
  - split; reflexivity.
  - reflexivity.
  - repeat constructor; intros _; eexists; vm_compute; reflexivity.
Defined.

Lemma decorate_none {A} (key : A → value) (l : list A) x :
  x ∈ l → int_key (key x) = None → decorate key l = None.
Proof.
  induction l as [|y l IH]; [by intros ?%elem_of_nil|].
  intros [->|Hin]%elem_of_cons Hx; cbn [decorate].
  - by rewrite Hx.
  - rewrite IH by done. by destruct (int_key (key y)).
Qed.

(** X20. One event without an integer block_index makes its block
    unreadable: when the block holds two events or more and one of them has
    no integer block_index, [get_events_by_block_height] raises and returns
    none of them. *)
Theorem events_without_index_raise h w heap e :
  healthy w →
  relations w !! "event" = Some heap →
  (2 ≤ length (filter (at_height h) heap))%nat →
  e ∈ heap → at_height h e → ¬ indexed e →
  ∃ cause,
    get_events_by_block_height h w =
      (w, Raise ("Pgsql::get_events_by_block_height: Failed to get events " +:+
                 cause)).
Proof.
  intros Hw Hrel Hlen Hin Hh Hidx. eexists.
  rewrite (get_events_by_block_height_healthy h w heap) by done.
  assert (e ∈ filter (at_height h) heap) as He by by apply list_elem_of_filter.
  assert (int_key (block_index e) = None) as Hnone.
  { apply eq_None_not_Some. exact Hidx. }
  destruct (filter (at_height h) heap) as [|x [|y l]] eqn:Hf; simpl in Hlen; [lia..|].
  unfold sorted. by rewrite (decorate_none block_index _ e He Hnone).
Qed.

Lemma events_without_index_raise_witness :
  ∃ cause,
  get_events_by_block_height 100
    (mkWorld Open []
       {[ "event" := [event_at "a" 100 1;
                      compile_row self.event
                        {[ "id" := VStr "b"; "block_height" := VInt 100 ]}] ]} ∅
       {[ "event_type" ]}) =
    (mkWorld Open []
       {[ "event" := [event_at "a" 100 1;
                      compile_row self.event
                        {[ "id" := VStr "b"; "block_height" := VInt 100 ]}] ]} ∅
       {[ "event_type" ]},
     Raise ("Pgsql::get_events_by_block_height: Failed to get events " +:+
            cause)).
Proof.
  apply (events_without_index_raise 100 _
           [event_at "a" 100 1;
            compile_row self.event {[ "id" := VStr "b"; "block_height" := VInt 100 ]}]
           (compile_row self.event {[ "id" := VStr "b"; "block_height" := VInt 100 ]})).
  - split; reflexivity.
  - reflexivity.
  - compute_done.
  - right. left.
  - compute_done.
  - compute_done.
Defined.

(** X24. A block with at most one event is returned as it is stored,
    whether or not the event has an integer block_index: no comparison is
    made. *)
Theorem events_single_need_no_index h w heap :
  healthy w →
  relations w !! "event" = Some heap →
  (length (filter (at_height h) heap) ≤ 1)%nat →
  get_events_by_block_height h w = (w, Ok (Some (filter (at_height h) heap))).
Proof.
  intros Hw Hrel Hlen.
  rewrite (get_events_by_block_height_healthy h w heap) by done.
  destruct (filter (at_height h) heap) as [|x [|y l]]; simpl in Hlen; [done|done|lia].
Qed.

Lemma events_single_need_no_index_witness :
  get_events_by_block_height 100
    (mkWorld Open []
       {[ "event" := [compile_row self.event
                        {[ "id" := VStr "b"; "block_height" := VInt 100 ]}] ]} ∅
       {[ "event_type" ]}) =
    (mkWorld Open []
       {[ "event" := [compile_row self.event
                        {[ "id" := VStr "b"; "block_height" := VInt 100 ]}] ]} ∅
       {[ "event_type" ]},
     Ok (Some (filter (at_height 100)
                 [compile_row self.event
                    {[ "id" := VStr "b"; "block_height" := VInt 100 ]}]))).
Proof.
  apply (events_single_need_no_index 100 _
           [compile_row self.event {[ "id" := VStr "b"; "block_height" := VInt 100 ]}]).
  - split; reflexivity.
  - reflexivity.
  - compute_done.
Defined.

Lemma put_elem_iff p heap r :
  NoDup (row_id <$> heap) →
  r ∈ put p heap ↔ r = p ∨ (r ∈ heap ∧ row_id r ≠ row_id p).
Proof.
  intros Hnd. split.
  - intros Hr. destruct (decide (row_id r = row_id p)) as [E|Hne].
    + left. assert (r ∈ filter (fun r => row_id r = row_id p) (put p heap)) as Hin
        by by apply list_elem_of_filter.
      rewrite put_filter_id in Hin by done. by apply list_elem_of_singleton in Hin.
    + right. apply put_elem in Hr as [->|Hr]; done.
  - intros [->|[Hr Hne]]; [apply put_elem_new|by apply put_elem_old].
Qed.

(** X23. A saved event is read back with its block: after [save_event] of a
    fully formed event at height h, [get_events_by_block_height h] returns a
    list, ascending by block_index, that holds the event together with the
    events of the block that were stored under other ids, and nothing
    else. *)
Theorem event_read_back_with_block h (e : Event) w heap :
  healthy w →
  relations w !! "event" = Some heap →
  heap_ok self.event heap →
  instance_of self.event e →
  at_height h e → indexed e →
  Forall (fun r => at_height h r → indexed r) heap →
  ∃ l,
    (get_events_by_block_height h (save_event e w).1).2 = Ok (Some l) ∧
    ascending l ∧
    ∀ r, r ∈ l ↔ r = e ∨ (r ∈ heap ∧ row_id r ≠ row_id e ∧ at_height h r).
Proof.
  intros Hw Hrel Hok He Hh Hi Hidx.
  change (save_event e) with (save KEvent e).
  rewrite (save_instance KEvent e w heap) by done. cbn [fst].
  set (w1 := set_relations _ w).
  destruct (get_events_by_block_height_spec h w1 (put e heap)) as (l & Hl & Hp & Ha).
  - done.
  - apply lookup_insert_eq.
  - intros _. apply Forall_forall. intros r [->|Hr]%put_elem; [done|].
    rewrite Forall_forall in Hidx. by apply Hidx.
  - exists l. rewrite Hl. split_and!; [done|done|].
    intros r. rewrite Hp, list_elem_of_filter, (put_elem_iff e heap r (proj2 Hok)).
    split.
    + intros [Hr [->|[? ?]]]; [by left|by right].
    + intros [->|(?&?&?)]; [split; [done|by left]|split; [done|by right]].
Qed.

Lemma event_read_back_with_block_witness :
  ∃ l,
    (get_events_by_block_height 100 (save_event (event_at "tx0" 100 0) two_events).1).2
      = Ok (Some l) ∧
    ascending l ∧
    ∀ r, r ∈ l ↔
         r = event_at "tx0" 100 0 ∨
         (r ∈ [event_at "tx2" 100 2; event_at "tx1" 100 1] ∧
          row_id r ≠ row_id (event_at "tx0" 100 0) ∧ at_height 100 r).
Proof.
  apply (event_read_back_with_block 100 (event_at "tx0" 100 0) two_events
           [event_at "tx2" 100 2; event_at "tx1" 100 1]).
  - split; reflexivity.
  - reflexivity.
  - split; [|compute_done].
    repeat apply Forall_cons_2; try apply Forall_nil_2;
      (split; [apply compile_row_dom|done]).
  - split; [apply compile_row_dom|done].
  - compute_done.
  - eexists. vm_compute. reflexivity.
  - repeat constructor; intros _; eexists; vm_compute; reflexivity.
Defined.

(** ** Settlement records of an order *)

(** X22. A saved settlement record is read back with its order: after
    [save_otc_record] of a fully formed record of order oid,
    [get_otc_records oid] returns a list that holds the record together with
    the records of the order that were stored under other ids, and nothing
    else. *)
Theorem otc_record_read_back_with_order oid (x : OTC_Record) w heap :
  healthy w →
  relations w !! "otc_record" = Some heap →
  heap_ok self.otc_record heap →
  instance_of self.otc_record x →
  col x "oid" = VInt oid →
  ∃ l,
    (get_otc_records oid (save_otc_record x w).1).2 = Ok (Some l) ∧
    ∀ r, r ∈ l ↔ r = x ∨ (r ∈ heap ∧ row_id r ≠ row_id x ∧ col r "oid" = VInt oid).
Proof.
  intros Hw Hrel Hok Hx Hoid.
  change (save_otc_record x) with (save KOtcRecord x).
  rewrite (save_instance KOtcRecord x w heap) by done. cbn [fst].
  set (w1 := set_relations _ w).
  exists (filter (fun r => col r "oid" = VInt oid) (put x heap)). split.
  - unfold get_otc_records, try_except, bind.
    rewrite acquire_healthy by done.
    rewrite (select_healthy self.otc_record _ _ w1 (put x heap));
      [|done|apply lookup_insert_eq].
    unfold fetchall. rewrite from_row_fmap. unfold ret. cbn [snd]. do 2 f_equal.
    apply list_filter_iff. intros r. rewrite sql_eq_decide by done.
    apply bool_decide_spec.
  - intros r. rewrite list_elem_of_filter, (put_elem_iff x heap r (proj2 Hok)).
    split.
    + intros [Hr [->|[? ?]]]; [by left|by right].
    + intros [->|(?&?&?)]; [split; [done|by left]|split; [done|by right]].
Qed.

Lemma otc_record_read_back_with_order_witness :
  ∃ l,
    (get_otc_records 9
       (save_otc_record
          (compile_row self.otc_record {[ "id" := VStr "tx5"; "oid" := VInt 9 ]})
          quiet_tables).1).2 = Ok (Some l) ∧
    ∀ r, r ∈ l ↔
         r = compile_row self.otc_record {[ "id" := VStr "tx5"; "oid" := VInt 9 ]} ∨
         (r ∈ [] ∧
          row_id r ≠
            row_id (compile_row self.otc_record {[ "id" := VStr "tx5"; "oid" := VInt 9 ]}) ∧
          col r "oid" = VInt 9).
Proof.
  apply (otc_record_read_back_with_order 9
           (compile_row self.otc_record {[ "id" := VStr "tx5"; "oid" := VInt 9 ]})
           quiet_tables []).
  - split; reflexivity.
  - reflexivity.
  - split; constructor.
  - split; [apply compile_row_dom|done].
  - compute_done.
Defined.

(** ** Closing and opening again *)

(** X25. Closing an open pool on a quiet connection succeeds and only marks
    the pool closed, and [init] after it brings back exactly the world
    before the close. *)
Theorem close_then_init w :
  healthy w →
  close w = (set_engine Closed w, Ok tt) ∧
  init (close w).1 = (w, Ok tt).
Proof.
  intros [He Hf].
  assert (close w = (set_engine Closed w, Ok tt)) as Hc.
  { unfold close, try_except, bind. rewrite He. by rewrite (tick_healthy w Hf). }
  split; [done|]. rewrite Hc. cbn [fst]. unfold init, bind.
  rewrite tick_healthy by done. destruct w as [e fs r i tys]. simpl in *. by subst.
Qed.

Lemma close_then_init_witness :
  close one_balance = (set_engine Closed one_balance, Ok tt) ∧
  init (close one_balance).1 = (one_balance, Ok tt).
Proof. apply (close_then_init one_balance). split; reflexivity. Defined.

(** ** The event table after a reset *)

(** X26. After [clear_all_tables] on a database without an event table,
    reading the events of a block fails: the reset does not create the
    table, so [get_events_by_block_height] raises instead of returning the
    empty list. *)
Theorem events_unreadable_after_reset h w :
  healthy w →
  Forall (fun n => indexes w !! n = None) cleared_names →
  relations w !! "event" = None →
  (clear_all_tables w).2 = Ok tt ∧
  ∃ cause,
    (get_events_by_block_height h (clear_all_tables w).1).2 =
      Raise ("Pgsql::get_events_by_block_height: Failed to get events " +:+ cause).
Proof.
  intros Hw Hnone Hev.
  destruct (clear_all_tables_healthy w Hw Hnone) as (w' & -> & Hw' & Hr).
  cbn [fst snd]. split; [done|]. eexists.
  unfold get_events_by_block_height, try_except, bind.
  rewrite acquire_healthy by done. unfold execute, bind.
  rewrite (tick_healthy w' (proj2 Hw')).
  assert (relations w' !! tname self.event = None) as ->; [|done].
  rewrite Hr. by simplify_map_eq.
Qed.

Lemma events_unreadable_after_reset_witness :
  (clear_all_tables (mkWorld Open [] ∅ ∅ ∅)).2 = Ok tt ∧
  ∃ cause,
    (get_events_by_block_height 100 (clear_all_tables (mkWorld Open [] ∅ ∅ ∅)).1).2 =
      Raise ("Pgsql::get_events_by_block_height: Failed to get events " +:+ cause).
Proof.
  apply (events_unreadable_after_reset 100 (mkWorld Open [] ∅ ∅ ∅)).
  - split; reflexivity.
  - repeat constructor.
  - reflexivity.
Defined.
